(** * spicetify-cli [cmd/apply.go]: the apply pipeline

    A shallow embedding of [src/cmd/apply.go]: the version gate
    ([checkStates]), the asset installer and the injection steps of [Apply],
    path resolution ([getExtensionPath], [getCustomAppPath]), the extension
    injector with its symbol remap ([pushExtensions]) and the custom-app
    bundler ([pushApps]).

    Go strings are byte sequences, so they are Rocq [string]s (lists of 8-bit
    [ascii]); the file system is a finite map from paths to nodes; console
    output, prompts and calls into collaborators are recorded in an event log;
    [os.Exit] and run-time panics are outcomes of the command monad. *)

From Stdlib Require Import ZArith Ascii.
From stdpp Require Import base option list strings gmap.

Local Open Scope Z_scope.

(** ** Go [strings] package, as used by the source *)

Module GoStrings.

Definition nl : ascii := "010"%char.
Definition dquote : ascii := "034"%char.

(** A one-byte string. *)
Definition str1 (c : ascii) : string := String c EmptyString.

(** [s[n:]]; the empty string when [n] exceeds the length. *)
Fixpoint drop_bytes (n : nat) (s : string) : string :=
  match n, s with
  | O, _ => s
  | S _, EmptyString => EmptyString
  | S n', String _ s' => drop_bytes n' s'
  end.

(** [strings.HasPrefix(s, p)]. *)
Definition HasPrefix (s p : string) : bool := String.prefix p s.

(** [strings.TrimPrefix]-like cut that reports whether [p] was there. *)
Definition cut_prefix (p s : string) : option string :=
  if HasPrefix s p then Some (drop_bytes (String.length p) s) else None.

(** [strings.HasSuffix(s, suffix)]. *)
Definition HasSuffix (s suffix : string) : bool :=
  let n := String.length s in
  let k := String.length suffix in
  if decide (k ≤ n)%nat
  then bool_decide (drop_bytes (n - k) s = suffix)
  else false.

(** [strings.Split(s, sep)] for a one-byte separator: always at least one
    field, [Split("", sep)] is the one empty field. *)
Fixpoint Split (s : string) (sep : ascii) : list string :=
  match s with
  | EmptyString => [EmptyString]
  | String c s' =>
      if bool_decide (c = sep) then EmptyString :: Split s' sep
      else match Split s' sep with
           | [] => [str1 c]
           | f :: fs => String c f :: fs
           end
  end.

(** [strings.Join(elems, sep)]. *)
Fixpoint Join (elems : list string) (sep : string) : string :=
  match elems with
  | [] => EmptyString
  | [e] => e
  | e :: rest => e +:+ sep +:+ Join rest sep
  end.

(** [strings.Replace(s, old, new, 1)]: the first occurrence of [old] only.
    An empty [old] matches at the beginning of the string. *)
Fixpoint Replace1 (s old new : string) : string :=
  match cut_prefix old s with
  | Some rest => new +:+ rest
  | None =>
      match s with
      | EmptyString => EmptyString
      | String c s' => String c (Replace1 s' old new)
      end
  end.

End GoStrings.

(** ** The symbol-map directive [//\s*spicetify_map\{(.+?)\}\{(.+?)\}]

    A backtracking matcher in continuation-passing style, with the priorities
    of Go's [regexp] (leftmost match first, greedy [*], lazy [+?]). *)

Module Directive.
Import GoStrings.

(** [\s] is [[\t\n\f\r ]]. *)
Definition is_space (c : ascii) : bool :=
  bool_decide (c ∈ ["009"; "010"; "012"; "013"; " "]%char).

(** [.] is any character but a newline. *)
Definition is_dot (c : ascii) : bool := negb (bool_decide (c = nl)).

(** [\s*] followed by [k]: longest run of spaces first. *)
Fixpoint spaces_star {R} (k : string → option R) (s : string) : option R :=
  match s with
  | String c s' =>
      if is_space c
      then match spaces_star k s' with
           | Some r => Some r
           | None => k s
           end
      else k s
  | EmptyString => k s
  end.

(** [(.+?)] followed by [k]: shortest capture first. *)
Fixpoint dot_plus_lazy {R} (k : string → option R) (s : string)
  : option (string * R) :=
  match s with
  | EmptyString => None
  | String c s' =>
      if is_dot c
      then match k s' with
           | Some r => Some (str1 c, r)
           | None =>
               match dot_plus_lazy k s' with
               | Some (g, r) => Some (String c g, r)
               | None => None
               end
           end
      else None
  end.

(** The whole pattern anchored at the start of [s]: the two captures. *)
Definition match_here (s : string) : option (string * string) :=
  s1 ← cut_prefix "//" s;
  r ← spaces_star (λ s2,
         s3 ← cut_prefix "spicetify_map{" s2;
         dot_plus_lazy (λ s4,
           s5 ← cut_prefix "}{" s4;
           dot_plus_lazy (λ s6, cut_prefix "}" s6) s5) s3) s1;
  Some (r.1, r.2.1).

(** [re.FindStringSubmatch(s)[1:]]: the leftmost match. *)
Fixpoint find (s : string) : option (string * string) :=
  match match_here s with
  | Some m => Some m
  | None =>
      match s with
      | EmptyString => None
      | String _ s' => find s'
      end
  end.

End Directive.

(** Modelled from the spec: [utils.FindSymbol] is not under [src/]. It tries
    the clue (here always the one symbol-map directive pattern) against
    [content] and returns the capture groups of the first match, or no
    element at all when the line does not match. *)
Definition FindSymbol (debugInfo content : string) : list string :=
  match Directive.find content with
  | Some (a, b) => [a; b]
  | None => []
  end.

(** The closure [pushExtensions] hands to [utils.ModifyFile]
    (apply.go, lines 231-243).  [remap_loop n i lines] runs [n] iterations of
    [for i := ...; i < len(lines); i++]; [None] is Go's run-time panic
    "index out of range" raised by [lines[i+1]]. *)
Fixpoint remap_loop (n i : nat) (lines : list string) : option (list string) :=
  match n with
  | O => Some lines
  | S n' =>
      match lines !! i with
      | None => Some lines
      | Some line =>
          let mapping := FindSymbol "" line in
          if decide (0 < length mapping)%nat then
            match lines !! S i with
            | None => None
            | Some next =>
                remap_loop n' (S i)
                  (<[S i := GoStrings.Replace1 next (mapping !!! 0%nat)
                                               (mapping !!! 1%nat)]> lines)
            end
          else remap_loop n' (S i) lines
      end
  end.

Definition remap (content : string) : option string :=
  let lines := GoStrings.Split content GoStrings.nl in
  lines' ← remap_loop (length lines) 0 lines;
  Some (GoStrings.Join lines' (GoStrings.str1 GoStrings.nl)).

(** ** File system, configuration, event log *)

(** What a path names. [os.Stat] succeeds on both kinds, [os.ReadFile] only
    on files. *)
Inductive node :=
| File (data : string)
| Dir.

(** [denied] holds the paths at which creating or truncating a file fails
    (missing parent folder, permissions, ...). *)
Record FS := mkFS {
  nodes : gmap string node;
  denied : gset string;
}.

(** Go's [error]: [None] is [nil]. *)
Definition error := option string.

(** The package-level variables and configuration keys [apply.go] reads. *)
Record Config := mkConfig {
  appPath : string;
  appDestPath : string;
  prefsPath : string;
  backupFolder : string;
  rawFolder : string;
  themedFolder : string;
  themeFolder : string;
  userExtensionsFolder : string;
  userAppsFolder : string;
  backupVersion : string;          (* backupSection.Key("version").MustString("") *)
  replaceColors : bool;
  overwriteAssets : bool;
  injectCSS : bool;
  isAppX : bool;
  expose_apis : bool;              (* preprocSection.Key("expose_apis").MustBool(false) *)
  colorSection : option (list (string * string));   (* nil, or its KeysHash() *)
  extensions : list string;        (* featureSection.Key("extensions").Strings("|") *)
  custom_apps : list string;       (* featureSection.Key("custom_apps").Strings("|") *)
  patchKeys : list string;         (* patchSection.Keys() *)
}.

(** Results of the two status collaborators, as the methods the source
    calls on them. *)
Record backupStatus := mkBackupStatus {
  IsEmpty : bool;
  IsOutdated : bool;
}.

Record spotifyStatus := mkSpotifyStatus {
  IsApplied : bool;
  IsBackupable : bool;
  IsMixed : bool;
  IsStock : bool;
}.

(** [type appManifest struct { Files []string `json:"subfiles"` }]. *)
Record appManifest := mkAppManifest {
  Files : list string;
}.

(** Calls into collaborators whose code is outside [apply.go]. *)
Inductive call :=
| os_RemoveAll (path : string)
| utils_Copy (src dest : string) (overwrite : bool)
| apply_UserCSS (dest theme : string) (scheme : option (list (string * string)))
| apply_UserAsset (dest theme : string)
| apply_AdditionalOptions (dest : string) (Extension CustomApp : list string)
| cmd_Patch
| utils_CreateJunction (src dest : string).

(** How a collaborator call ends: it returns (with its [error], ignored by
    callers of functions that return nothing) or it ends the process. *)
Inductive status :=
| Returned (err : error)
| Died (code : Z).

Inductive printer :=
| PError | PWarning | PInfo | PBold | PGreen | PSuccess | PFatal.

(** What a run does that can be observed from outside, oldest first. *)
Inductive event :=
| Print (p : printer) (msg : string)
| Ask (prompt : string) (defaultAnswer quietModeOverride answer : bool)
| Call (c : call) (st : status)
| Write (path data : string) (err : error).

Record World := mkWorld {
  fs : FS;
  cfg : Config;
  log : list event;
}.

(** Everything the source takes from outside this file: Go's [path/filepath]
    and [encoding/json], the user at the terminal, and the collaborators of
    the [utils], [apply], [status] and [cmd] packages. *)
Class Platform := {
  filepath_Join : list string → string;
  filepath_IsAbs : string → bool;
  filepath_Base : string → string;
  json_Unmarshal : string → option appManifest;
  GetExecutableDir : string;
  GetJsHelperDir : string;
  backupstatus_Get : string → string → string → FS → backupStatus;
  spotifystatus_Get : string → FS → spotifyStatus;
  user_answer : string → bool → bool → bool;
  InitSetting_globals : Config → FS → Config + Z;
  collaborator : call → Config → FS → FS * status;
}.

(** ** The command monad: state, process exit, panic *)

Inductive outcome (A : Type) :=
| Ok (a : A) (w : World)
| Exit (code : Z) (w : World)
| Panic (w : World).
Arguments Ok {A} a w.
Arguments Exit {A} code w.
Arguments Panic {A} w.

Definition Cmd (A : Type) : Type := World → outcome A.

Definition world_of {A} (r : outcome A) : World :=
  match r with
  | Ok _ w | Exit _ w | Panic w => w
  end.

Definition ret {A} (a : A) : Cmd A := λ w, Ok a w.

Definition bind {A B} (m : Cmd A) (k : A → Cmd B) : Cmd B :=
  λ w, match m w with
       | Ok a w' => k a w'
       | Exit code w' => Exit code w'
       | Panic w' => Panic w'
       end.

Declare Scope cmd_scope.
Delimit Scope cmd_scope with cmd.
Notation "x <~ m ;; k" := (bind m (λ x, k))
  (at level 100, m at next level, right associativity) : cmd_scope.
Notation "m ;; k" := (bind m (λ _, k))
  (at level 100, right associativity) : cmd_scope.
Local Open Scope cmd_scope.

(** [for _, x := range l { body }]; [continue] is the body returning early. *)
Fixpoint range {A} (l : list A) (body : A → Cmd unit) : Cmd unit :=
  match l with
  | [] => ret ()
  | x :: rest => body x ;; range rest body
  end.

Definition emit (e : event) : Cmd unit :=
  λ w, Ok () (mkWorld (fs w) (cfg w) (log w ++ [e])).

Definition globals : Cmd Config := λ w, Ok (cfg w) w.

Definition os_Exit {A} (code : Z) : Cmd A := λ w, Exit code w.

Definition panic {A} : Cmd A := λ w, Panic w.

Definition PrintError (msg : string) : Cmd unit := emit (Print PError msg).
Definition PrintWarning (msg : string) : Cmd unit := emit (Print PWarning msg).
Definition PrintInfo (msg : string) : Cmd unit := emit (Print PInfo msg).
Definition PrintBold (msg : string) : Cmd unit := emit (Print PBold msg).
Definition PrintGreen (msg : string) : Cmd unit := emit (Print PGreen msg).
Definition PrintSuccess (msg : string) : Cmd unit := emit (Print PSuccess msg).

(** Modelled from the spec: [utils.Fatal] is not under [src/]; a fatal error
    is reported and aborts the entire run with a non-zero exit. *)
Definition Fatal {A} (err : string) : Cmd A :=
  emit (Print PFatal err) ;; os_Exit 1.

(** *** [os] *)

Definition stat (f : FS) (path : string) : bool :=
  bool_decide (is_Some (nodes f !! path)).

Definition read_file (f : FS) (path : string) : option string :=
  match nodes f !! path with
  | Some (File data) => Some data
  | _ => None
  end.

Definition can_write (f : FS) (path : string) : bool :=
  bool_decide (path ∉ denied f) &&
  match nodes f !! path with
  | Some Dir => false
  | _ => true
  end.

Definition write_file (f : FS) (path data : string) : FS :=
  mkFS (<[path := File data]> (nodes f)) (denied f).

(** [_, err := os.Stat(path)]: the error alone. *)
Definition os_Stat (path : string) : Cmd error :=
  λ w, Ok (if stat (fs w) path then None else Some "no such file or directory") w.

(** [os.ReadFile(path)]: the content and the error. *)
Definition os_ReadFile (path : string) : Cmd (string * error) :=
  λ w, Ok (match read_file (fs w) path with
           | Some data => (data, None)
           | None => (EmptyString, Some "cannot read file")
           end) w.

(** [os.WriteFile(path, data, 0700)]. *)
Definition os_WriteFile (path data : string) : Cmd error :=
  λ w, if can_write (fs w) path
       then Ok None (mkWorld (write_file (fs w) path data) (cfg w)
                             (log w ++ [Write path data None]))
       else let err := Some "cannot write file" in
            Ok err (mkWorld (fs w) (cfg w) (log w ++ [Write path data err])).

(** ** The program *)

Section Program.
Context `{P : Platform}.
Import GoStrings.

(** [s] between double quotes, as inside the string literals of the source. *)
Definition q (s : string) : string := str1 dquote +:+ s +:+ str1 dquote.

(** *** Collaborators *)

Definition invoke (c : call) : Cmd error :=
  λ w, let r := collaborator c (cfg w) (fs w) in
       let w' := mkWorld r.1 (cfg w) (log w ++ [Call c r.2]) in
       match r.2 with
       | Returned err => Ok err w'
       | Died code => Exit code w'
       end.

Definition backupstatus_Get_now (prefs folder version : string) : Cmd backupStatus :=
  λ w, Ok (backupstatus_Get prefs folder version (fs w)) w.

Definition spotifystatus_Get_now (path : string) : Cmd spotifyStatus :=
  λ w, Ok (spotifystatus_Get path (fs w)) w.

(** Modelled from the spec: [InitSetting] (configuration loading) is not
    under [src/]; it sets the package-level variables, or ends the
    process. *)
Definition InitSetting : Cmd unit :=
  λ w, match InitSetting_globals (cfg w) (fs w) with
       | inl c => Ok () (mkWorld (fs w) c (log w))
       | inr code => Exit code w
       end.

(** Modelled from the spec: [ReadAnswer] is not under [src/]; the
    confirmation prompt [Ask(prompt, default bool) → bool], blocking. *)
Definition ReadAnswer (info : string) (defaultAnswer quietModeOverride : bool)
  : Cmd bool :=
  let answer := user_answer info defaultAnswer quietModeOverride in
  emit (Ask info defaultAnswer quietModeOverride answer) ;; ret answer.

(** Modelled from the spec: [utils.CopyFile] is not under [src/]; it copies
    the file into the destination directory, preserving its filename. *)
Definition CopyFile (srcPath dest : string) : Cmd error :=
  r <~ os_ReadFile srcPath ;;
  match r.2 with
  | Some e => ret (Some e)
  | None => os_WriteFile (filepath_Join [dest; filepath_Base srcPath]) r.1
  end.

(** Modelled from the spec: [utils.ModifyFile] is not under [src/]; it
    replaces the content of the file by [repl] of it. A panic of [repl]
    is the panic of the run. *)
Definition ModifyFile (path : string) (repl : string → option string) : Cmd unit :=
  r <~ os_ReadFile path ;;
  match r.2 with
  | Some _ => ret ()
  | None =>
      match repl r.1 with
      | None => panic
      | Some content => os_WriteFile path content ;; ret ()
      end
  end.

(** *** [checkStates] (lines 156-188) *)

Definition msg_backup : string :=
  "You haven't backed up. Run " +:+ q "spicetify backup apply" +:+ ".".
Definition msg_reinstall_backup : string :=
  "You haven't backed up and Spotify cannot be backed up at this state. Please re-install Spotify then run "
  +:+ q "spicetify backup apply" +:+ ".".
Definition msg_mismatch : string :=
  "Spotify version and backup version are mismatched.".
Definition msg_just_updated : string :=
  "Spotify client possibly just had an new update.".
Definition msg_rebackup : string :=
  "Please run " +:+ q "spicetify backup apply" +:+ ".".
Definition msg_reinstall_rebackup : string :=
  "Spotify cannot be backed up at this state. Please re-install Spotify then run "
  +:+ q "spicetify backup apply" +:+ ".".
Definition msg_continue : string := "Continue anyway? [y/N] ".

Definition checkStates : Cmd unit :=
  g <~ globals ;;
  let backupVersion := backupVersion g in
  backStat <~ backupstatus_Get_now (prefsPath g) (backupFolder g) backupVersion ;;
  spotStat <~ spotifystatus_Get_now (appPath g) ;;
  if IsEmpty backStat then
    (if IsBackupable spotStat
     then PrintError msg_backup
     else PrintError msg_reinstall_backup) ;;
    os_Exit 1
  else if IsOutdated backStat then
    PrintWarning msg_mismatch ;;
    (if IsMixed spotStat then
       PrintInfo msg_just_updated ;;
       PrintInfo msg_rebackup
     else if IsStock spotStat then
       PrintInfo msg_rebackup
     else
       PrintInfo msg_reinstall_rebackup) ;;
    answer <~ ReadAnswer msg_continue false true ;;
    if negb answer then os_Exit 1 else ret ()
  else ret ().

(** *** [getExtensionPath] (lines 190-204) *)

Definition getExtensionPath (name : string) : Cmd (string * error) :=
  g <~ globals ;;
  let extFilePath := filepath_Join [userExtensionsFolder g; name] in
  err <~ os_Stat extFilePath ;;
  match err with
  | None => ret (extFilePath, None)
  | Some _ =>
      let extFilePath := filepath_Join [GetExecutableDir; "Extensions"; name] in
      err <~ os_Stat extFilePath ;;
      match err with
      | None => ret (extFilePath, None)
      | Some _ => ret (EmptyString, Some "Extension not found")
      end
  end.

(** *** [pushExtensions] (lines 206-246) *)

(** Lines 225-244: the copy and, for a module script, the symbol remap. *)
Definition pushExtensions_copy (dest extName extPath : string) : Cmd unit :=
  err <~ CopyFile extPath dest ;;
  match err with
  | Some e => PrintError e
  | None =>
      if HasSuffix extName ".mjs"
      then ModifyFile (filepath_Join [dest; extName]) remap
      else ret ()
  end.

(** One iteration of the loop over [list]. *)
Definition pushExtensions_item (dest v : string) : Cmd unit :=
  if filepath_IsAbs v then
    pushExtensions_copy dest (filepath_Base v) v
  else
    r <~ getExtensionPath v ;;
    match r.2 with
    | Some _ => PrintError ("Extension " +:+ q v +:+ " not found.")
    | None => pushExtensions_copy dest v r.1
    end.

Definition pushExtensions (list : list string) : Cmd unit :=
  g <~ globals ;;
  let dest := filepath_Join [appDestPath g; "xpui"] in
  range list (pushExtensions_item dest).

(** *** [getCustomAppPath] (lines 248-262) *)

Definition getCustomAppPath (name : string) : Cmd (string * error) :=
  g <~ globals ;;
  let customAppFolderPath := filepath_Join [userAppsFolder g; name] in
  err <~ os_Stat customAppFolderPath ;;
  match err with
  | None => ret (customAppFolderPath, None)
  | Some _ =>
      let customAppFolderPath := filepath_Join [GetExecutableDir; "CustomApps"; name] in
      err <~ os_Stat customAppFolderPath ;;
      match err with
      | None => ret (customAppFolderPath, None)
      | Some _ => ret (EmptyString, Some "Custom app not found")
      end
  end.

(** *** [pushApps] (lines 268-331) *)

(** Lines 297-305: the loop over [manifestJson.Files]. *)
Fixpoint pushApps_subfiles (customAppPath : string) (files : list string)
    (jsFileContent : string) : Cmd string :=
  match files with
  | [] => ret jsFileContent
  | subfile :: rest =>
      let subfilePath := filepath_Join [customAppPath; subfile] in
      r <~ os_ReadFile subfilePath ;;
      match r.2 with
      | Some _ => pushApps_subfiles customAppPath rest jsFileContent
      | None =>
          pushApps_subfiles customAppPath rest
            ((jsFileContent +:+ str1 nl) +:+ r.1)
      end
  end.

(** Lines 308-314: [fmt.Sprintf] of the module-chunk template. *)
Definition jsTemplate (appName jsFileContent : string) : string :=
  "((" +:+ q "undefined" +:+ "!=typeof self?self:global).webpackChunkopen=("
  +:+ q "undefined" +:+ "!=typeof self?self:global).webpackChunkopen||[])"
  +:+ str1 nl
  +:+ ".push([[" +:+ q appName +:+ "],{" +:+ q appName +:+ ":(e,t,n)=>{"
  +:+ str1 nl
  +:+ q "use strict" +:+ ";n.r(t),n.d(t,{default:()=>render});"
  +:+ str1 nl
  +:+ jsFileContent
  +:+ str1 nl
  +:+ "}}]);".

(** One iteration of the loop over [list]. *)
Definition pushApps_item (app : string) : Cmd unit :=
  g <~ globals ;;
  let appName := "spicetify-routes-" +:+ app in
  r <~ getCustomAppPath app ;;
  let customAppPath := r.1 in
  match r.2 with
  | Some _ => PrintError ("Custom app " +:+ q app +:+ " not found.")
  | None =>
      let jsFile := filepath_Join [customAppPath; "index.js"] in
      r <~ os_ReadFile jsFile ;;
      let jsFileContent := r.1 in
      match r.2 with
      | Some _ => PrintError ("Custom app " +:+ q app +:+ " does not have index.js")
      | None =>
          let manifestFile := filepath_Join [customAppPath; "manifest.json"] in
          r <~ os_ReadFile manifestFile ;;
          let manifestFileContent :=
            match r.2 with
            | Some _ => "{}"
            | None => r.1
            end in
          os_WriteFile
            (filepath_Join [appDestPath g; "xpui"; appName +:+ ".json"])
            manifestFileContent ;;
          jsFileContent <~
            match json_Unmarshal manifestFileContent with
            | Some manifestJson =>
                pushApps_subfiles customAppPath (Files manifestJson) jsFileContent
            | None => ret jsFileContent
            end ;;
          let jsTemplate := jsTemplate appName jsFileContent in
          os_WriteFile
            (filepath_Join [appDestPath g; "xpui"; appName +:+ ".js"])
            jsTemplate ;;
          let cssFile := filepath_Join [customAppPath; "style.css"] in
          r <~ os_ReadFile cssFile ;;
          let cssFileContent :=
            match r.2 with
            | Some _ => EmptyString
            | None => r.1
            end in
          os_WriteFile
            (filepath_Join [appDestPath g; "xpui"; appName +:+ ".css"])
            cssFileContent ;;
          ret ()
      end
  end.

Definition pushApps (list : list string) : Cmd unit :=
  range list pushApps_item.

(** *** [nodeModuleSymlink] (lines 337-352) *)

Definition nodeModuleSymlink : Cmd unit :=
  g <~ globals ;;
  r <~ getExtensionPath "node_modules" ;;
  let nodeModulePath := r.1 in
  match r.2 with
  | Some _ => ret ()
  | None =>
      PrintBold "Found node_modules folder. Creating node_modules symlink:" ;;
      let nodeModuleDest := filepath_Join [appDestPath g; "xpui"; "node_modules"] in
      err <~ invoke (utils_CreateJunction nodeModulePath nodeModuleDest) ;;
      match err with
      | Some _ => PrintError "Cannot create node_modules symlink"
      | None => PrintGreen "OK"
      end
  end.

(** *** [updateCSS], [updateAssets] (lines 126-140) *)

Definition updateCSS : Cmd unit :=
  g <~ globals ;;
  let scheme := colorSection g in
  let theme := if negb (injectCSS g) then EmptyString else themeFolder g in
  invoke (apply_UserCSS (appDestPath g) theme scheme) ;;
  ret ().

Definition updateAssets : Cmd unit :=
  g <~ globals ;;
  invoke (apply_UserAsset (appDestPath g) (themeFolder g)) ;;
  ret ().

(** *** [Apply] (lines 18-105) *)

Definition fatal_if (err : error) : Cmd unit :=
  match err with
  | Some e => Fatal e
  | None => ret ()
  end.

(** Lines 22-51: the raw and themed copies into [appDestPath]. *)
Definition Apply_assets : Cmd unit :=
  g <~ globals ;;
  spotStat <~ spotifystatus_Get_now (appDestPath g) ;;
  extractedStock <~
    (if negb (IsApplied spotStat) then
       PrintBold "Copying raw assets:" ;;
       err <~ invoke (os_RemoveAll (appDestPath g)) ;;
       fatal_if err ;;
       err <~ invoke (utils_Copy (rawFolder g) (appDestPath g) true) ;;
       fatal_if err ;;
       PrintGreen "OK" ;;
       ret true
     else ret false) ;;
  if replaceColors g then
    PrintBold "Overwriting themed assets:" ;;
    err <~ invoke (utils_Copy (themedFolder g) (appDestPath g) true) ;;
    fatal_if err ;;
    PrintGreen "OK"
  else if negb extractedStock then
    PrintBold "Overwriting raw assets:" ;;
    err <~ invoke (utils_Copy (rawFolder g) (appDestPath g) true) ;;
    fatal_if err ;;
    PrintGreen "OK"
  else ret ().

Definition msg_appx : string :=
  "You are using Spotify Windows Store version, which is only partly supported."
  +:+ str1 nl +:+
  "Stop using Spicetify with Windows Store version unless you absolutely CANNOT install normal Spotify from installer."
  +:+ str1 nl +:+
  "Modded Spotify cannot be launched using original Shortcut/Start menu tile. To correctly launch Spotify with modification, please make a desktop shortcut that execute "
  +:+ q "spicetify auto" +:+
  ". After that, you can change its icon, pin to start menu or put in startup folder.".

(** Lines 53-104: the injection steps. *)
Definition Apply_inject : Cmd unit :=
  g <~ globals ;;
  PrintBold "Transferring user.css:" ;;
  updateCSS ;;
  PrintGreen "OK" ;;
  (if overwriteAssets g then
     PrintBold "Overwriting custom assets:" ;;
     updateAssets ;;
     PrintGreen "OK"
   else ret ()) ;;
  (if expose_apis g then
     CopyFile
       (filepath_Join [GetJsHelperDir; "spicetifyWrapper.js"])
       (filepath_Join [appDestPath g; "xpui"]) ;;
     ret ()
   else ret ()) ;;
  let extentionList := extensions g in
  let customAppsList := custom_apps g in
  PrintBold "Applying additional modifications:" ;;
  invoke (apply_AdditionalOptions (appDestPath g) extentionList customAppsList) ;;
  PrintGreen "OK" ;;
  (if decide (0 < length extentionList)%nat then
     PrintBold "Transferring extensions:" ;;
     pushExtensions extentionList ;;
     PrintGreen "OK" ;;
     nodeModuleSymlink
   else ret ()) ;;
  (if decide (0 < length customAppsList)%nat then
     PrintBold "Transferring custom apps:" ;;
     pushApps customAppsList ;;
     PrintGreen "OK"
   else ret ()) ;;
  (if decide (0 < length (patchKeys g))%nat then
     PrintBold "Patching:" ;;
     invoke cmd_Patch ;;
     PrintGreen "OK"
   else ret ()) ;;
  PrintSuccess "Spotify is spiced up!" ;;
  if isAppX g then PrintInfo msg_appx else ret ().

Definition Apply : Cmd unit :=
  checkStates ;;
  InitSetting ;;
  Apply_assets ;;
  Apply_inject.

End Program.

(** ** The symbol remap as a scan of the lines *)

Module Remap.
Import GoStrings.

(** The scan as a recursion on the list of lines: a line is first rewritten
    by the directive pending from the line before it, and the rewritten
    line is then itself searched for a directive. *)
Fixpoint rescan (pending : option (string * string)) (lines : list string)
  : list string :=
  match lines with
  | [] => []
  | l :: rest =>
      let l' := match pending with
                | Some (a, b) => Replace1 l a b
                | None => l
                end in
      l' :: rescan (Directive.find l') rest
  end.

(** The scan as the specification words it: after a directive has rewritten
    its following line, scanning resumes at the line after the rewritten
    one; a directive on the last line does nothing. *)
Fixpoint skipscan (lines : list string) : list string :=
  match lines with
  | [] => []
  | l :: rest =>
      match Directive.find l, rest with
      | Some (a, b), next :: rest' => l :: Replace1 next a b :: skipscan rest'
      | _, _ => l :: skipscan rest
      end
  end.

(** Whether the last of [lines] carries a directive. *)
Definition ends_with_directive (lines : list string) : bool :=
  match last lines with
  | Some l => bool_decide (is_Some (Directive.find l))
  | None => false
  end.

(** Two directives in a row, then a line the second one applies to. *)
Definition two_directives : string :=
  "// spicetify_map{x}{y}" +:+ str1 nl +:+
  "// spicetify_map{c}{d}" +:+ str1 nl +:+
  "c".

(** The claim as worded: the remap is the skipping scan. *)
Definition remap_is_skipscan (content : string) : Prop :=
  remap content = Some (Join (skipscan (Split content nl)) (str1 nl)).

End Remap.

(** ** One custom app's bundle as a function of the world *)

Section Bundle.
Context `{P : Platform}.
Import GoStrings.

(** The world with more events in its log. *)
Definition logged (w : World) (evs : list event) : World :=
  mkWorld (fs w) (cfg w) (log w ++ evs).

(** The world after [os.WriteFile(path, data, 0700)], whether it failed or
    not. *)
Definition written (path data : string) (w : World) : World :=
  world_of (os_WriteFile path data w).

(** The error [os.WriteFile] returns. *)
Definition write_error (f : FS) (path : string) : error :=
  if can_write f path then None else Some "cannot write file".

(** The three artifacts of an app in the destination. *)
Definition artifact (g : Config) (app ext : string) : string :=
  filepath_Join [appDestPath g; "xpui"; ("spicetify-routes-" +:+ app) +:+ ext].

(** The subfiles of the manifest that can be read, in manifest order. *)
Definition subfile_contents (f : FS) (dir : string) (files : list string)
  : list string :=
  omap (λ subfile, read_file f (filepath_Join [dir; subfile])) files.

(** The entry script and the readable subfiles, joined by a newline. *)
Definition payload (f : FS) (dir : string) (files : list string) (js : string)
  : string :=
  Join (js :: subfile_contents f dir files) (str1 nl).

(** The manifest as the bundler uses it: the file's content, or [{}] when
    it cannot be read; its subfiles, or none when it cannot be decoded. *)
Definition manifest_content (f : FS) (dir : string) : string :=
  default "{}" (read_file f (filepath_Join [dir; "manifest.json"])).

Definition manifest_files (content : string) : list string :=
  match json_Unmarshal content with
  | Some m => Files m
  | None => []
  end.

(** The world after an app found at [dir] with entry script [js] has been
    bundled: three writes, each attempted whatever became of the others. *)
Definition bundled (app dir js : string) (w : World) : World :=
  let g := cfg w in
  let manifest := manifest_content (fs w) dir in
  let w1 := written (artifact g app ".json") manifest w in
  let script := payload (fs w1) dir (manifest_files manifest) js in
  let w2 := written (artifact g app ".js")
              (jsTemplate ("spicetify-routes-" +:+ app) script) w1 in
  let css := default EmptyString (read_file (fs w2) (filepath_Join [dir; "style.css"])) in
  written (artifact g app ".css") css w2.

End Bundle.

(** ** Events of the asset installer and of the injection steps *)

Module Trace.

(** A call of the recursive copy collaborator. *)
Definition is_copy (e : event) : bool :=
  match e with
  | Call (utils_Copy _ _ _) _ => true
  | _ => false
  end.

(** A step that injects into the destination: the user.css transfer, the
    custom assets, the additional options, the junction, the patches, and
    every file written by the extension and custom-app transfers. *)
Definition is_injection (e : event) : bool :=
  match e with
  | Call (apply_UserCSS _ _ _) _
  | Call (apply_UserAsset _ _) _
  | Call (apply_AdditionalOptions _ _ _) _
  | Call cmd_Patch _
  | Call (utils_CreateJunction _ _) _
  | Write _ _ _ => true
  | _ => false
  end.

Definition raw_copy (g : Config) : event :=
  Call (utils_Copy (rawFolder g) (appDestPath g) true) (Returned None).

Definition themed_copy (g : Config) : event :=
  Call (utils_Copy (themedFolder g) (appDestPath g) true) (Returned None).

(** The copies [Apply] makes, by whether the host was already applied and
    by [replaceColors]. *)
Definition copies_of (applied : bool) (g : Config) : list event :=
  (if applied then [] else [raw_copy g]) ++
  (if replaceColors g then [themed_copy g]
   else if applied then [raw_copy g] else []).

Definition no_copy (e : event) : Prop := is_copy e = false.

(** The claim as worded: whenever an injection step runs, exactly one copy
    has run before it. *)
Definition one_copy_before_injection `{P : Platform} (w : World) : Prop :=
  ∀ pre e post,
    log (world_of (Apply w)) = log w ++ pre ++ e :: post →
    is_injection e = true →
    length (List.filter is_copy pre) = 1%nat.

(** A command only appends to the log, and what it appends satisfies [Q]. *)
Definition appends {A} (Q : event → Prop) (m : Cmd A) : Prop :=
  ∀ w, ∃ evs, log (world_of (m w)) = log w ++ evs ∧ Forall Q evs.

End Trace.

(** ** A concrete platform, for examples *)

Module Demo.
Import GoStrings.

(** Path elements joined by [/], empty elements ignored. *)
Definition Join (elem : list string) : string :=
  GoStrings.Join (filter (λ s, s ≠ EmptyString) elem) "/".

Definition IsAbs (path : string) : bool := HasPrefix path "/".

Definition Base (path : string) : string :=
  default path (last (Split path "/"%char)).

(** [s] without its last [n] bytes. *)
Definition drop_end (n : nat) (s : string) : string :=
  String.substring 0 (String.length s - n) s.

(** A JSON string without escapes. *)
Definition unquote (s : string) : option string :=
  body ← cut_prefix (str1 dquote) s;
  if HasSuffix body (str1 dquote)
  then let body := drop_end 1 body in
       if bool_decide (dquote ∈ String.list_ascii_of_string body)
       then None else Some body
  else None.

(** A decoder for manifests of the shapes [{}] and [{"subfiles":[...]}]. *)
Definition Unmarshal (data : string) : option appManifest :=
  if bool_decide (data = "{}") then Some (mkAppManifest [])
  else
    rest ← cut_prefix ("{" +:+ q "subfiles" +:+ ":[") data;
    if HasSuffix rest "]}"
    then let inner := drop_end 2 rest in
         if bool_decide (inner = EmptyString) then Some (mkAppManifest [])
         else mkAppManifest <$> mapM unquote (Split inner ","%char)
    else None
  .

(** The backup is empty when the backup folder is missing, outdated when
    the version in the preferences differs from the recorded one. *)
Definition backup (prefs folder version : string) (f : FS) : backupStatus :=
  mkBackupStatus
    (negb (stat f folder))
    (negb (bool_decide (read_file f prefs = Some version))).

(** The host state, read from a marker file. *)
Definition spotify (path : string) (f : FS) : spotifyStatus :=
  let state := read_file f (Join [path; "state"]) in
  let marks s := bool_decide (state = Some s) in
  mkSpotifyStatus (marks "applied") (marks "stock" || marks "mixed")
                  (marks "mixed") (marks "stock").

(** Every collaborator succeeds and leaves the files alone; the user
    answers [answer]. *)
Definition platform (answer : bool) : Platform := {|
  filepath_Join := Join;
  filepath_IsAbs := IsAbs;
  filepath_Base := Base;
  json_Unmarshal := Unmarshal;
  GetExecutableDir := "/opt/spicetify";
  GetJsHelperDir := "/opt/spicetify/jsHelper";
  backupstatus_Get := backup;
  spotifystatus_Get := spotify;
  user_answer := λ _ _ _, answer;
  InitSetting_globals := λ g _, inl g;
  collaborator := λ _ _ f, (f, Returned None);
|}.

Definition config : Config := {|
  appPath := "/spotify/Apps";
  appDestPath := "/spotify/Apps";
  prefsPath := "/home/u/prefs";
  backupFolder := "/home/u/Backup";
  rawFolder := "/home/u/Extracted/Raw";
  themedFolder := "/home/u/Extracted/Themed";
  themeFolder := "/home/u/Themes/T";
  userExtensionsFolder := "/home/u/Extensions";
  userAppsFolder := "/home/u/CustomApps";
  backupVersion := "1.2.3";
  replaceColors := true;
  overwriteAssets := false;
  injectCSS := true;
  isAppX := false;
  expose_apis := false;
  colorSection := None;
  extensions := [];
  custom_apps := [];
  patchKeys := [];
|}.

Definition world (files : list (string * node)) (g : Config) : World :=
  mkWorld (mkFS (list_to_map files) ∅) g [].

(** A host in stock state with a current backup. *)
Definition fresh_host : World :=
  world [("/home/u/Backup", Dir); ("/home/u/prefs", File "1.2.3");
         ("/spotify/Apps/state", File "stock")] config.



(** An extension and a custom app, each in the user folder and in the
    bundled folder. *)
Definition both_folders : World :=
  world [("/home/u/Extensions/a.js", File "user");
         ("/opt/spicetify/Extensions/a.js", File "bundled");
         ("/home/u/CustomApps/demo", Dir);
         ("/opt/spicetify/CustomApps/demo", Dir)] config.

(** The manifest [{"subfiles":["extra.js"]}]. *)
Definition manifest_extra : string :=
  "{" +:+ q "subfiles" +:+ ":[" +:+ q "extra.js" +:+ "]}".

(** A custom app with an entry script, one subfile and its manifest. *)
Definition app_files : list (string * node) :=
  [("/home/u/CustomApps/demo", Dir);
   ("/home/u/CustomApps/demo/index.js", File "A");
   ("/home/u/CustomApps/demo/extra.js", File "B");
   ("/home/u/CustomApps/demo/manifest.json", File manifest_extra)].

Definition app_world : World := world app_files config.

(** The same app where the destination refuses the manifest artifact. *)
Definition app_denied : World :=
  mkWorld (mkFS (list_to_map app_files)
                {["/spotify/Apps/xpui/spicetify-routes-demo.json"]})
          config [].

(** A custom app folder with nothing in it. *)
Definition app_no_index : World :=
  world [("/home/u/CustomApps/demo", Dir)] config.


(** The same app whose manifest lists a subfile that does not exist. *)
Definition manifest_missing : string :=
  "{" +:+ q "subfiles" +:+ ":[" +:+ q "missing.js" +:+ "," +:+ q "extra.js" +:+ "]}".

Definition app_missing_subfile : World :=
  world [("/home/u/CustomApps/demo", Dir);
         ("/home/u/CustomApps/demo/index.js", File "A");
         ("/home/u/CustomApps/demo/extra.js", File "B");
         ("/home/u/CustomApps/demo/manifest.json", File manifest_missing)] config.

(** A module script with a directive and the line it applies to. *)
Definition module_script : string :=
  "// spicetify_map{foo}{bar}" +:+ str1 nl +:+ "foo.init()".

Definition with_module_script : World :=
  world [("/home/u/Extensions/m.mjs", File module_script)] config.

(** A module script that ends with a directive. *)
Definition with_trailing_directive : World :=
  world [("/home/u/Extensions/m.mjs", File "// spicetify_map{foo}{bar}")] config.

(** The log of [Apply] on [fresh_host], around the user.css transfer. *)
Definition before_user_css : list event :=
  [Print PBold "Copying raw assets:";
   Call (os_RemoveAll "/spotify/Apps") (Returned None);
   Call (utils_Copy "/home/u/Extracted/Raw" "/spotify/Apps" true) (Returned None);
   Print PGreen "OK";
   Print PBold "Overwriting themed assets:";
   Call (utils_Copy "/home/u/Extracted/Themed" "/spotify/Apps" true) (Returned None);
   Print PGreen "OK";
   Print PBold "Transferring user.css:"].

Definition user_css : event :=
  Call (apply_UserCSS "/spotify/Apps" "/home/u/Themes/T" None) (Returned None).

Definition after_user_css : list event :=
  [Print PGreen "OK";
   Print PBold "Applying additional modifications:";
   Call (apply_AdditionalOptions "/spotify/Apps" [] []) (Returned None);
   Print PGreen "OK";
   Print PSuccess "Spotify is spiced up!"].

End Demo.

(** ** What the version gate looks at *)

Section GateInputs.
Context `{P : Platform}.

(** The backup state [checkStates] gets in world [w]. *)
Definition backStat_of (w : World) : backupStatus :=
  backupstatus_Get (prefsPath (cfg w)) (backupFolder (cfg w))
                   (backupVersion (cfg w)) (fs w).


End GateInputs.

(** ** The other entry points of [apply.go] *)

Section EntryPoints.
Context `{P : Platform}.

(** [utils.PrependTime], which is not under [src/]: the text with the time
    of day before it. *)
Variable PrependTime : string → string.

Definition msg_blank_theme : string :=
  "Nothing is updated: Config " +:+ q "current_theme" +:+ " is blank.".

(** *** [UpdateTheme] (lines 108-124) *)

Definition UpdateTheme : Cmd unit :=
  checkStates ;;
  InitSetting ;;
  g <~ globals ;;
  (if decide (String.length (themeFolder g) = 0)%nat then
     PrintWarning msg_blank_theme ;;
     os_Exit 1
   else ret ()) ;;
  updateCSS ;;
  PrintSuccess "Custom CSS is updated" ;;
  if overwriteAssets g then
    updateAssets ;;
    PrintSuccess "Custom assets are updated"
  else ret ().

(** *** [UpdateAllExtension] (lines 143-152) *)

Definition UpdateAllExtension : Cmd unit :=
  checkStates ;;
  g <~ globals ;;
  let list := extensions g in
  if decide (0 < length list)%nat then
    pushExtensions list ;;
    PrintSuccess (PrependTime "All extensions are updated.")
  else
    PrintError "No extension to update.".

End EntryPoints.

(** ** What a command does to the world *)

Module Observe.

Definition is_print (e : event) : bool :=
  match e with
  | Print _ _ => true
  | _ => false
  end.

Definition is_ask (e : event) : bool :=
  match e with
  | Ask _ _ _ _ => true
  | _ => false
  end.

Definition is_write (e : event) : bool :=
  match e with
  | Write _ _ _ => true
  | _ => false
  end.

Definition is_call (e : event) : bool :=
  match e with
  | Call _ _ => true
  | _ => false
  end.

(** A removal of the destination or a recursive copy into it. *)
Definition is_install (c : call) : bool :=
  match c with
  | os_RemoveAll _ | utils_Copy _ _ _ => true
  | _ => false
  end.

Definition is_install_event (e : event) : bool :=
  match e with
  | Call c _ => is_install c
  | _ => false
  end.

Definition is_removal (e : event) : bool :=
  match e with
  | Call (os_RemoveAll _) _ => true
  | _ => false
  end.

(** An error message or a file write: all that the two transfer loops do
    that can be seen. *)
Definition is_error_or_write (e : event) : bool :=
  match e with
  | Print PError _ | Write _ _ _ => true
  | _ => false
  end.

(** An injection step that comes after the user.css transfer: a call
    for the custom assets, the additional options, the patches or the
    junction, or a file write. *)
Definition is_later_step (e : event) : bool :=
  match e with
  | Call (apply_UserAsset _ _) _
  | Call (apply_AdditionalOptions _ _ _) _
  | Call cmd_Patch _
  | Call (utils_CreateJunction _ _) _
  | Write _ _ _ => true
  | _ => false
  end.

(** The theme [updateCSS] passes on: none when [inject_css] is off. *)
Definition css_theme (g : Config) : string :=
  if negb (injectCSS g) then EmptyString else themeFolder g.

(** A call that transfers the user.css or the custom assets of the theme. *)
Definition is_theme_call (e : event) : bool :=
  match e with
  | Call (apply_UserCSS _ _ _) _ | Call (apply_UserAsset _ _) _ => true
  | _ => false
  end.

(** How a run ends. *)
Inductive ending :=
| Normal
| Exits
| Panics.

Definition ending_of {A} (r : outcome A) : ending :=
  match r with
  | Ok _ _ => Normal
  | Exit _ _ => Exits
  | Panic _ => Panics
  end.

(** The command ends in one of the ways [E] allows, whatever the world. *)
Definition ends_within {A} (E : ending → Prop) (m : Cmd A) : Prop :=
  ∀ w, E (ending_of (m w)).

(** Started with configuration [g], the command leaves the configuration
    and the write permissions alone, changes no path outside [S], and
    removes nothing. *)
Definition touches_only {A} (g : Config) (S : string → Prop) (m : Cmd A)
  : Prop :=
  ∀ w, cfg w = g →
       cfg (world_of (m w)) = g
       ∧ denied (fs (world_of (m w))) = denied (fs w)
       ∧ (∀ p, ¬ S p → nodes (fs (world_of (m w))) !! p = nodes (fs w) !! p)
       ∧ (∀ p, stat (fs w) p = true → stat (fs (world_of (m w))) p = true).

End Observe.

(** ** The paths the transfer loops write *)

Section Targets.
Context `{P : Platform}.

(** The folder the extensions and the custom apps go to. *)
Definition xpui (g : Config) : string := filepath_Join [appDestPath g; "xpui"].

(** A path directly inside the [xpui] folder. *)
Definition in_xpui (g : Config) (p : string) : Prop :=
  ∃ name, p = filepath_Join [xpui g; name].

(** One of the three artifacts of one of the [apps]. *)
Definition artifact_of (apps : list string) (g : Config) (p : string) : Prop :=
  ∃ app ext, app ∈ apps ∧ ext ∈ [".json"; ".js"; ".css"]
             ∧ p = artifact g app ext.

(** The name an extension is installed under. *)
Definition extName_of (v : string) : string :=
  if filepath_IsAbs v then filepath_Base v else v.

(** The file an extension is copied from: the name itself when it is an
    absolute path, what [getExtensionPath] finds otherwise. *)
Definition resolves_to (w : World) (v src : string) : Prop :=
  (filepath_IsAbs v = true ∧ src = v)
  ∨ (filepath_IsAbs v = false ∧ getExtensionPath v w = Ok (src, None) w).

End Targets.

(** ** The text of a directive *)

Module DirectiveText.
Import GoStrings.

(** Every byte of [s] passes [f]. *)
Fixpoint all_chars (f : ascii → bool) (s : string) : bool :=
  match s with
  | EmptyString => true
  | String c s' => f c && all_chars f s'
  end.

(** Not a newline. *)
Definition inline (c : ascii) : bool := negb (bool_decide (c = nl)).

(** Neither a newline nor a closing brace. *)
Definition plain (c : ascii) : bool :=
  negb (bool_decide (c = nl)) && negb (bool_decide (c = "}"%char)).

(** A directive with the blanks [ws] after the comment marker and the
    tokens [a] and [b]. *)
Definition directive (ws a b : string) : string :=
  "//" +:+ ws +:+ "spicetify_map{" +:+ a +:+ "}{" +:+ b +:+ "}".

End DirectiveText.

(** ** Runs that reach the end *)

Module Completion.

(** A success message. *)
Definition is_done (e : event) : bool :=
  match e with
  | Print PSuccess _ => true
  | _ => false
  end.

Definition not_done (e : event) : Prop := is_done e = false.

(** The end of the log of a complete run of [Apply] with configuration
    [g]. *)
Definition closing (g : Config) : list event :=
  Print PSuccess "Spotify is spiced up!"
  :: (if isAppX g then [Print PInfo msg_appx] else []).

(** Run in [w], the command logs [T] last when it returns, and before
    that, or when it does not return, only events that satisfy [Q]. *)
Definition completes {A} (Q : event → Prop) (T : list event) (m : Cmd A)
    (w : World) : Prop :=
  ∃ evs, Forall Q evs
         ∧ match m w with
           | Ok _ w' => log w' = log w ++ evs ++ T
           | Exit _ w' | Panic w' => log w' = log w ++ evs
           end.

End Completion.

(** ** More concrete worlds *)

Module Scenes.
Import GoStrings.

(** The platform of [Demo] where every recursive copy fails. *)
Definition copy_fails : Platform := {|
  filepath_Join := Demo.Join;
  filepath_IsAbs := Demo.IsAbs;
  filepath_Base := Demo.Base;
  json_Unmarshal := Demo.Unmarshal;
  GetExecutableDir := "/opt/spicetify";
  GetJsHelperDir := "/opt/spicetify/jsHelper";
  backupstatus_Get := Demo.backup;
  spotifystatus_Get := Demo.spotify;
  user_answer := λ _ _ _, true;
  InitSetting_globals := λ g _, inl g;
  collaborator := λ c _ f,
    (f, match c with
        | utils_Copy _ _ _ => Returned (Some "disk full")
        | _ => Returned None
        end);
|}.

(** [g] with another theme folder and another list of extensions. *)
Definition configured (g : Config) (theme : string) (exts : list string)
  : Config :=
  mkConfig (appPath g) (appDestPath g) (prefsPath g) (backupFolder g)
           (rawFolder g) (themedFolder g) theme (userExtensionsFolder g)
           (userAppsFolder g) (backupVersion g) (replaceColors g)
           (overwriteAssets g) (injectCSS g) (isAppX g) (expose_apis g)
           (colorSection g) exts (custom_apps g) (patchKeys g).

(** A current backup, a host in stock state. *)
Definition host_files : list (string * node) :=
  [("/home/u/Backup", Dir); ("/home/u/prefs", File "1.2.3");
   ("/spotify/Apps/state", File "stock")].

(** No theme is configured. *)
Definition blank_theme : World :=
  Demo.world host_files (configured Demo.config EmptyString []).

(** One extension is configured and present in the user folder. *)
Definition host_with_extension : World :=
  Demo.world (("/home/u/Extensions/a.js", File "user") :: host_files)
             (configured Demo.config "/home/u/Themes/T" ["a.js"]).

(** The name of an extension is that of a folder. *)
Definition ext_is_folder : World :=
  Demo.world [("/home/u/Extensions/d.js", Dir)] Demo.config.

(** The destination refuses the extension. *)
Definition ext_refused : World :=
  mkWorld (mkFS (list_to_map [("/home/u/Extensions/a.js", File "user")])
                {["/spotify/Apps/xpui/a.js"]})
          Demo.config [].

(** The custom app of [Demo] with a stylesheet. *)
Definition styled_app : World :=
  Demo.world (("/home/u/CustomApps/demo/style.css", File "body{}")
              :: Demo.app_files) Demo.config.

(** The user folder of extensions has a [node_modules] folder. *)
Definition with_node_modules : World :=
  Demo.world [("/home/u/Extensions/node_modules", Dir)] Demo.config.

(** A clock that stands still. *)
Definition clock (s : string) : string := "[12:00:00] " +:+ s.

(** The log of [Apply] on [Demo.fresh_host] when the copy fails. *)
Definition before_failed_copy : list event :=
  [Print PBold "Copying raw assets:";
   Call (os_RemoveAll "/spotify/Apps") (Returned None)].

Definition failed_copy : call :=
  utils_Copy "/home/u/Extracted/Raw" "/spotify/Apps" true.

(** The log of [Apply] on [Demo.fresh_host] after the removal. *)
Definition after_removal : list event :=
  [Call (utils_Copy "/home/u/Extracted/Raw" "/spotify/Apps" true) (Returned None);
   Print PGreen "OK";
   Print PBold "Overwriting themed assets:";
   Call (utils_Copy "/home/u/Extracted/Themed" "/spotify/Apps" true) (Returned None);
   Print PGreen "OK";
   Print PBold "Transferring user.css:";
   Demo.user_css;
   Print PGreen "OK";
   Print PBold "Applying additional modifications:";
   Call (apply_AdditionalOptions "/spotify/Apps" [] []) (Returned None);
   Print PGreen "OK";
   Print PSuccess "Spotify is spiced up!"].

Definition additional_options : event :=
  Call (apply_AdditionalOptions "/spotify/Apps" [] []) (Returned None).

End Scenes.

(** * Properties *)

(** ** The symbol remap *)

Module RemapFacts.
Import GoStrings Remap.

Lemma FindSymbol_none l : Directive.find l = None → FindSymbol "" l = [].
Proof. unfold FindSymbol. by intros ->. Qed.

Lemma FindSymbol_some l a b :
  Directive.find l = Some (a, b) → FindSymbol "" l = [a; b].
Proof. unfold FindSymbol. by intros ->. Qed.

Lemma remap_loop_past_end n i (lines : list string) :
  (length lines ≤ i)%nat → remap_loop n i lines = Some lines.
Proof.
  intros Hi. destruct n as [|n]; [done|]. simpl.
  by rewrite (lookup_ge_None_2 lines i Hi).
Qed.

Lemma ends_with_directive_cons l x rest :
  ends_with_directive (l :: x :: rest) = ends_with_directive (x :: rest).
Proof. unfold ends_with_directive. by rewrite last_cons_cons. Qed.

(** One iteration of the loop at a line that has a following line. *)
Lemma remap_loop_step n pre l next rest :
  remap_loop (S n) (length pre) (pre ++ l :: next :: rest)
  = remap_loop n (length (pre ++ [l]))
      ((pre ++ [l]) ++
         match Directive.find l with
         | Some (a, b) => Replace1 next a b
         | None => next
         end :: rest).
Proof.
  cbn [remap_loop]. rewrite list_lookup_middle by done.
  assert (Hnext : ∀ y, (pre ++ l :: y :: rest) = ((pre ++ [l]) ++ y :: rest)).
  { intros y. by rewrite <- app_assoc. }
  assert (Hlen : S (length pre) = length (pre ++ [l])).
  { rewrite length_app. simpl. lia. }
  destruct (Directive.find l) as [[a b]|] eqn:Hf.
  - rewrite (FindSymbol_some l a b Hf).
    destruct (decide _) as [_|?]; [|simpl in *; lia].
    rewrite Hnext, Hlen, list_lookup_middle by done.
    by rewrite insert_app_r_alt, Nat.sub_diag by done.
  - rewrite (FindSymbol_none l Hf).
    destruct (decide _) as [?|_]; [simpl in *; lia|].
    by rewrite Hnext, Hlen.
Qed.

Lemma ends_with_directive_rescan l x rest :
  ends_with_directive (l :: rescan None (x :: rest))
  = ends_with_directive (rescan None (x :: rest)).
Proof. apply ends_with_directive_cons. Qed.

Lemma rescan_step l next rest :
  rescan None (l :: next :: rest)
  = l :: rescan None (match Directive.find l with
                      | Some (a, b) => Replace1 next a b
                      | None => next
                      end :: rest).
Proof. simpl. by destruct (Directive.find l) as [[a b]|]. Qed.

(** The loop, entered at line [l] with [pre] already behind it, computes
    the scan of the remaining lines, provided the last line it reaches
    carries no directive. *)
Lemma remap_loop_rescan rest : ∀ pre l n,
  (S (length rest) ≤ n)%nat →
  ends_with_directive (rescan None (l :: rest)) = false →
  remap_loop n (length pre) (pre ++ l :: rest)
  = Some (pre ++ rescan None (l :: rest)).
Proof.
  induction rest as [|next rest IH]; intros pre l n Hn Hlast.
  - destruct n as [|n]; [lia|]. simpl.
    rewrite list_lookup_middle by done.
    unfold ends_with_directive in Hlast. simpl in Hlast.
    destruct (Directive.find l) as [m|] eqn:Hf.
    { exfalso. rewrite bool_decide_eq_false in Hlast. apply Hlast. by eexists. }
    rewrite (FindSymbol_none l Hf). simpl.
    apply remap_loop_past_end. rewrite length_app. simpl. lia.
  - destruct n as [|n]; [simpl in Hn; lia|].
    rewrite remap_loop_step, rescan_step.
    rewrite rescan_step, ends_with_directive_rescan in Hlast.
    rewrite IH; [|simpl in Hn; lia|done].
    by rewrite <- app_assoc.
Qed.

(** The loop panics when the last line it reaches carries a directive. *)
Lemma remap_loop_panics rest : ∀ pre l n,
  (S (length rest) ≤ n)%nat →
  ends_with_directive (rescan None (l :: rest)) = true →
  remap_loop n (length pre) (pre ++ l :: rest) = None.
Proof.
  induction rest as [|next rest IH]; intros pre l n Hn Hlast.
  - destruct n as [|n]; [lia|]. simpl.
    rewrite list_lookup_middle by done.
    unfold ends_with_directive in Hlast. simpl in Hlast.
    rewrite bool_decide_eq_true in Hlast. destruct Hlast as [[a b] Hf].
    rewrite (FindSymbol_some l a b Hf). simpl.
    rewrite lookup_ge_None_2; [done|]. rewrite length_app. simpl. lia.
  - destruct n as [|n]; [simpl in Hn; lia|].
    rewrite remap_loop_step.
    rewrite rescan_step, ends_with_directive_rescan in Hlast.
    apply IH; [simpl in Hn; lia|done].
Qed.

Lemma Split_nonempty s sep : ∃ l rest, Split s sep = l :: rest.
Proof.
  induction s as [|c s IH]; simpl; [by eauto|].
  case_bool_decide; [by eauto|].
  destruct IH as (l & rest & ->). by eauto.
Qed.

(** Whatever the content, a directive on the last line reached makes the
    remap panic. *)
Lemma remap_trailing_directive content :
  ends_with_directive (rescan None (Split content nl)) = true →
  remap content = None.
Proof.
  intros H. unfold remap.
  destruct (Split_nonempty content nl) as (l & rest & Hs). rewrite Hs in *.
  change (remap_loop (length (l :: rest)) 0 (l :: rest))
    with (remap_loop (length (l :: rest)) (length (@nil string)) ([] ++ l :: rest)).
  by rewrite (remap_loop_panics rest [] l (length (l :: rest)) (le_n _) H).
Qed.

Lemma remap_no_trailing_directive content :
  ends_with_directive (rescan None (Split content nl)) = false →
  remap content = Some (Join (rescan None (Split content nl)) (str1 nl)).
Proof.
  intros H. unfold remap.
  destruct (Split_nonempty content nl) as (l & rest & Hs). rewrite Hs in *.
  change (remap_loop (length (l :: rest)) 0 (l :: rest))
    with (remap_loop (length (l :: rest)) (length (@nil string)) ([] ++ l :: rest)).
  by rewrite (remap_loop_rescan rest [] l (length (l :: rest)) (le_n _) H).
Qed.

(** C2 (as worded, refuted). The claim has the scan resume at the line
    after the rewritten one. On two directives in a row the code searches
    the second one too and rewrites the third line to [d]; the skipping
    scan leaves it as [c]. *)
Lemma remap_is_not_skipscan : ¬ remap_is_skipscan two_directives.
Proof. unfold remap_is_skipscan. vm_compute. discriminate. Qed.

(** C2 (amended). For every module-script content, the remap rewrites each
    line by the directive of the line before it (the first literal
    occurrence of token A replaced by token B, once), and scanning continues
    with the rewritten line itself, which is searched for a directive in
    its turn; this is what the remap returns whenever the last line reached
    carries no directive. In particular, a directive [{foo}{bar}] followed
    by [foo.init()] gives [bar.init()] as second line and leaves the first
    line unchanged. *)
Theorem remap_rescans_rewritten_line :
  (∀ content,
     ends_with_directive (rescan None (Split content nl)) = false →
     remap content = Some (Join (rescan None (Split content nl)) (str1 nl)))
  ∧ remap ("// spicetify_map{foo}{bar}" +:+ str1 nl +:+ "foo.init()")
    = Some ("// spicetify_map{foo}{bar}" +:+ str1 nl +:+ "bar.init()").
Proof.
  split; [exact remap_no_trailing_directive|].
  by rewrite remap_no_trailing_directive.
Qed.

Lemma remap_rescans_rewritten_line_witness :
  ends_with_directive (rescan None (Split two_directives nl)) = false
  ∧ remap two_directives
    = Some ("// spicetify_map{x}{y}" +:+ str1 nl +:+
            "// spicetify_map{c}{d}" +:+ str1 nl +:+
            "d").
Proof.
  split; [reflexivity|].
  rewrite (proj1 remap_rescans_rewritten_line two_directives); reflexivity.
Defined.

(** C3 (code at the failing input). A module script whose last line is a
    directive: [lines[i+1]] is out of range and the remap panics instead of
    leaving the content unchanged; [pushExtensions] panics with it, after
    the copy of that extension and before the next extension is looked at. *)
Theorem remap_directive_on_last_line_panics :
  remap "// spicetify_map{foo}{bar}" = None
  ∧ remap ("foo.init()" +:+ str1 nl +:+ "// spicetify_map{foo}{bar}") = None
  ∧ pushExtensions (P := Demo.platform true) ["m.mjs"; "a.js"]
      Demo.with_trailing_directive
    = Panic (written "/spotify/Apps/xpui/m.mjs" "// spicetify_map{foo}{bar}"
               Demo.with_trailing_directive).
Proof.
  split; [by apply remap_trailing_directive|].
  split; [by apply remap_trailing_directive|].
  vm_compute. reflexivity.
Qed.

End RemapFacts.

(** ** Go strings *)

Module GoStringsFacts.
Import GoStrings.

Lemma append_cons x (a b : string) : String x a +:+ b = String x (a +:+ b).
Proof. reflexivity. Qed.

Lemma append_assoc (a b c : string) : (a +:+ b) +:+ c = a +:+ b +:+ c.
Proof. induction a as [|x a IH]; [done|]. rewrite !append_cons. by f_equal. Qed.

Lemma append_nil_r (a : string) : a +:+ EmptyString = a.
Proof. induction a as [|x a IH]; [done|]. rewrite append_cons. by f_equal. Qed.

(** [Join] of a non-empty list: the head, then each further element
    preceded by the separator. *)
Lemma Join_cons (x : string) (rest : list string) (sep : string) :
  Join (x :: rest) sep
  = x +:+ foldr (λ e acc, sep +:+ e +:+ acc) EmptyString rest.
Proof.
  revert x. induction rest as [|y rest IH]; intros x.
  - simpl. by rewrite append_nil_r.
  - change (Join (x :: y :: rest) sep) with (x +:+ sep +:+ Join (y :: rest) sep).
    by rewrite IH.
Qed.

Lemma Replace1_eq (s old new : string) :
  Replace1 s old new
  = match cut_prefix old s with
    | Some rest => new +:+ rest
    | None =>
        match s with
        | EmptyString => EmptyString
        | String c s' => String c (Replace1 s' old new)
        end
    end.
Proof. by destruct s. Qed.

Lemma cut_prefix_app (old rest : string) :
  cut_prefix old (old +:+ rest) = Some rest.
Proof.
  unfold cut_prefix, HasPrefix.
  induction old as [|c old IH]; [by destruct rest|].
  rewrite append_cons. simpl.
  destruct (ascii_dec c c); [|done].
  by destruct (String.prefix old (old +:+ rest)).
Qed.

Lemma cut_prefix_None (old s : string) :
  HasPrefix s old = false → cut_prefix old s = None.
Proof. unfold cut_prefix. by intros ->. Qed.

(** [Replace1] rewrites the first occurrence of [old]: the one before which
    [old] does not occur. *)
Lemma Replace1_first (pre old new post : string) :
  (∀ k, (k < String.length pre)%nat →
        HasPrefix (drop_bytes k (pre +:+ old +:+ post)) old = false) →
  Replace1 (pre +:+ old +:+ post) old new = pre +:+ new +:+ post.
Proof.
  induction pre as [|c pre IH]; intros Hfirst.
  - change (EmptyString +:+ old +:+ post) with (old +:+ post).
    by rewrite Replace1_eq, cut_prefix_app.
  - rewrite Replace1_eq, cut_prefix_None.
    + rewrite !append_cons. f_equal. apply IH.
      intros k Hk. apply (Hfirst (S k)). simpl. lia.
    + apply (Hfirst 0%nat). simpl. lia.
Qed.

(** [Replace1] leaves a string without occurrence of [old] as it is. *)
Lemma Replace1_absent (s old new : string) :
  (∀ k, (k ≤ String.length s)%nat → HasPrefix (drop_bytes k s) old = false) →
  Replace1 s old new = s.
Proof.
  induction s as [|c s IH]; intros Habsent.
  - rewrite Replace1_eq, cut_prefix_None; [done|].
    apply (Habsent 0%nat). simpl. lia.
  - rewrite Replace1_eq, cut_prefix_None.
    + f_equal. apply IH. intros k Hk. apply (Habsent (S k)). simpl. lia.
    + apply (Habsent 0%nat). simpl. lia.
Qed.

End GoStringsFacts.

(** ** Commands *)

Section CmdFacts.
Context `{P : Platform}.
Import GoStrings.

Lemma bind_Ok {A B} (m : Cmd A) (k : A → Cmd B) w a w' :
  m w = Ok a w' → bind m k w = k a w'.
Proof. unfold bind. by intros ->. Qed.

Lemma bind_Exit {A B} (m : Cmd A) (k : A → Cmd B) w code w' :
  m w = Exit code w' → bind m k w = Exit code w'.
Proof. unfold bind. by intros ->. Qed.

Lemma os_WriteFile_written path data w :
  os_WriteFile path data w = Ok (write_error (fs w) path) (written path data w).
Proof.
  unfold written, write_error, os_WriteFile. by destruct (can_write _ _).
Qed.

Lemma log_written path data w :
  log (written path data w)
  = log w ++ [Write path data (write_error (fs w) path)].
Proof.
  unfold written, write_error, os_WriteFile. by destruct (can_write _ _).
Qed.

Lemma os_ReadFile_Some path data w :
  read_file (fs w) path = Some data → os_ReadFile path w = Ok (data, None) w.
Proof. unfold os_ReadFile. by intros ->. Qed.

Lemma os_ReadFile_None path w :
  read_file (fs w) path = None →
  os_ReadFile path w = Ok (EmptyString, Some "cannot read file") w.
Proof. unfold os_ReadFile. by intros ->. Qed.

(** Path resolution reads the file system and changes nothing. *)
Lemma getExtensionPath_eq name w :
  getExtensionPath name w
  = Ok (let user := filepath_Join [userExtensionsFolder (cfg w); name] in
        let bundled := filepath_Join [GetExecutableDir; "Extensions"; name] in
        if stat (fs w) user then (user, None)
        else if stat (fs w) bundled then (bundled, None)
        else (EmptyString, Some "Extension not found")) w.
Proof.
  unfold getExtensionPath, bind, globals, os_Stat, ret. simpl.
  destruct (stat _ _); [done|]. by destruct (stat _ _).
Qed.

Lemma getCustomAppPath_eq name w :
  getCustomAppPath name w
  = Ok (let user := filepath_Join [userAppsFolder (cfg w); name] in
        let bundled := filepath_Join [GetExecutableDir; "CustomApps"; name] in
        if stat (fs w) user then (user, None)
        else if stat (fs w) bundled then (bundled, None)
        else (EmptyString, Some "Custom app not found")) w.
Proof.
  unfold getCustomAppPath, bind, globals, os_Stat, ret. simpl.
  destruct (stat _ _); [done|]. by destruct (stat _ _).
Qed.

Lemma pushExtensions_cons v rest w :
  pushExtensions (v :: rest) w
  = bind (pushExtensions_item (filepath_Join [appDestPath (cfg w); "xpui"]) v)
         (λ _, range rest (pushExtensions_item
                             (filepath_Join [appDestPath (cfg w); "xpui"]))) w.
Proof. reflexivity. Qed.

(** *** The version gate *)



(** *** Path resolution *)

(** C8. A name is looked up in the user folder first and in the bundled
    folder second, and the first match is the result: a name present in
    the user folder resolves to the user-folder path whether or not the
    bundled folder has it too; a name present in neither is reported as
    not found for that item only, and the loop goes on with the next
    item. The same holds for extensions and for custom apps. *)
Theorem resolution_prefers_user_folder (w : World) (name : string) :
  let user := filepath_Join [userExtensionsFolder (cfg w); name] in
  let bundled := filepath_Join [GetExecutableDir; "Extensions"; name] in
  let userApp := filepath_Join [userAppsFolder (cfg w); name] in
  let bundledApp := filepath_Join [GetExecutableDir; "CustomApps"; name] in
  (stat (fs w) user = true →
     getExtensionPath name w = Ok (user, None) w)
  ∧ (stat (fs w) user = false → stat (fs w) bundled = true →
     getExtensionPath name w = Ok (bundled, None) w)
  ∧ (stat (fs w) user = false → stat (fs w) bundled = false →
     getExtensionPath name w = Ok (EmptyString, Some "Extension not found") w
     ∧ (filepath_IsAbs name = false →
        ∀ rest, pushExtensions (name :: rest) w
                = pushExtensions rest
                    (logged w [Print PError
                                 ("Extension " +:+ q name +:+ " not found.")])))
  ∧ (stat (fs w) userApp = true →
     getCustomAppPath name w = Ok (userApp, None) w)
  ∧ (stat (fs w) userApp = false → stat (fs w) bundledApp = true →
     getCustomAppPath name w = Ok (bundledApp, None) w)
  ∧ (stat (fs w) userApp = false → stat (fs w) bundledApp = false →
     getCustomAppPath name w = Ok (EmptyString, Some "Custom app not found") w
     ∧ ∀ rest, pushApps (name :: rest) w
               = pushApps rest
                   (logged w [Print PError
                                ("Custom app " +:+ q name +:+ " not found.")])).
Proof.
  intros user bundled userApp bundledApp.
  repeat split.
  - intros H. rewrite getExtensionPath_eq. simpl. fold user. by rewrite H.
  - intros H1 H2. rewrite getExtensionPath_eq. simpl. fold user bundled.
    by rewrite H1, H2.
  - rewrite getExtensionPath_eq. simpl. fold user bundled.
    by rewrite H, H0.
  - intros Habs rest. rewrite pushExtensions_cons.
    unfold pushExtensions_item at 1. rewrite Habs.
    unfold bind at 1 2. rewrite getExtensionPath_eq. simpl.
    fold user bundled. by rewrite H, H0.
  - intros H. rewrite getCustomAppPath_eq. simpl. fold userApp. by rewrite H.
  - intros H1 H2. rewrite getCustomAppPath_eq. simpl. fold userApp bundledApp.
    by rewrite H1, H2.
  - rewrite getCustomAppPath_eq. simpl. fold userApp bundledApp.
    by rewrite H, H0.
  - intros rest. unfold pushApps. cbn [range].
    unfold pushApps_item at 1. unfold bind at 1 2 3, globals.
    rewrite getCustomAppPath_eq. simpl.
    fold userApp bundledApp. by rewrite H, H0.
Qed.

(** *** The custom-app bundler *)

Lemma pushApps_cons app rest w :
  pushApps (app :: rest) w = bind (pushApps_item app) (λ _, pushApps rest) w.
Proof. reflexivity. Qed.

(** C9. A custom app that is found but whose index.js cannot be read is
    skipped: the one error message "does not have index.js" is logged,
    the file system is left as it was, so that none of the .json, .js and
    .css artifacts is written, and the loop goes on with the next app. *)
Theorem pushApps_skips_app_without_index
    (w : World) (app dir : string) (rest : list string) :
  getCustomAppPath app w = Ok (dir, None) w →
  read_file (fs w) (filepath_Join [dir; "index.js"]) = None →
  let w' := logged w [Print PError
                        ("Custom app " +:+ q app +:+ " does not have index.js")] in
  pushApps_item app w = Ok () w'
  ∧ fs w' = fs w
  ∧ pushApps (app :: rest) w = pushApps rest w'.
Proof.
  intros Hdir Hjs w'.
  assert (Hitem : pushApps_item app w = Ok () w').
  { unfold pushApps_item. unfold bind at 1, globals.
    rewrite (bind_Ok _ _ _ _ _ Hdir). simpl.
    by rewrite (bind_Ok _ _ _ _ _ (os_ReadFile_None _ _ Hjs)). }
  split; [done|]. split; [done|].
  by rewrite pushApps_cons, (bind_Ok _ _ _ _ _ Hitem).
Qed.

Lemma pushApps_subfiles_eq dir files : ∀ acc w,
  pushApps_subfiles dir files acc w
  = Ok (acc +:+ foldr (λ e a, str1 nl +:+ e +:+ a) EmptyString
                      (subfile_contents (fs w) dir files)) w.
Proof.
  induction files as [|subfile files IH]; intros acc w.
  - simpl. by rewrite GoStringsFacts.append_nil_r.
  - cbn [pushApps_subfiles]. unfold bind, os_ReadFile.
    unfold subfile_contents. cbn [omap list_omap].
    destruct (read_file _ _) as [data|]; simpl; rewrite IH; [|done].
    by rewrite !GoStringsFacts.append_assoc.
Qed.

(** An app that is found and has a readable index.js is bundled. *)
Lemma pushApps_item_bundled (w : World) (app dir js : string) :
  getCustomAppPath app w = Ok (dir, None) w →
  read_file (fs w) (filepath_Join [dir; "index.js"]) = Some js →
  pushApps_item app w = Ok () (bundled app dir js w).
Proof.
  intros Hdir Hjs.
  unfold pushApps_item. unfold bind at 1, globals.
  rewrite (bind_Ok _ _ _ _ _ Hdir). simpl.
  rewrite (bind_Ok _ _ _ _ _ (os_ReadFile_Some _ _ _ Hjs)). simpl.
  unfold bundled, manifest_content.
  set (manifest := default "{}" (read_file (fs w) (filepath_Join [dir; "manifest.json"]))).
  assert (Hm : ∀ B (k : string * error → Cmd B),
    bind (os_ReadFile (filepath_Join [dir; "manifest.json"])) k w
    = k (default EmptyString
           (read_file (fs w) (filepath_Join [dir; "manifest.json"])),
         match read_file (fs w) (filepath_Join [dir; "manifest.json"]) with
         | Some _ => None
         | None => Some "cannot read file"
         end) w).
  { intros B k. unfold bind, os_ReadFile.
    by destruct (read_file (fs w) (filepath_Join [dir; "manifest.json"])). }
  rewrite Hm. clear Hm. cbn [fst snd].
  replace (match
              match read_file (fs w) (filepath_Join [dir; "manifest.json"]) with
              | Some _ => None
              | None => Some "cannot read file"
              end
            with
            | Some _ => "{}"
            | None => default EmptyString
                        (read_file (fs w) (filepath_Join [dir; "manifest.json"]))
            end) with manifest
    by (subst manifest;
        by destruct (read_file (fs w) (filepath_Join [dir; "manifest.json"]))).
  rewrite (bind_Ok _ _ _ _ _ (os_WriteFile_written _ _ _)).
  set (w1 := written _ manifest w).
  assert (Hs : ∀ B (k : string → Cmd B),
    bind (match json_Unmarshal manifest with
          | Some manifestJson => pushApps_subfiles dir (Files manifestJson) js
          | None => ret js
          end) k w1
    = k (payload (fs w1) dir (manifest_files manifest) js) w1).
  { intros B k. unfold payload, manifest_files.
    rewrite GoStringsFacts.Join_cons.
    destruct (json_Unmarshal manifest) as [m|].
    - by rewrite (bind_Ok _ _ _ _ _ (pushApps_subfiles_eq _ _ _ _)).
    - unfold bind, ret. simpl. by rewrite GoStringsFacts.append_nil_r. }
  rewrite Hs. clear Hs.
  rewrite (bind_Ok _ _ _ _ _ (os_WriteFile_written _ _ _)).
  fold (artifact (cfg w) app ".js"). fold (artifact (cfg w) app ".json") in w1.
  set (w2 := written _ _ w1).
  unfold bind at 1, os_ReadFile at 1.
  replace (match
             (match read_file (fs w2) (filepath_Join [dir; "style.css"]) with
              | Some data => (data, None)
              | None => (EmptyString, Some "cannot read file")
              end).2
           with
           | Some _ => EmptyString
           | None =>
               (match read_file (fs w2) (filepath_Join [dir; "style.css"]) with
                | Some data => (data, None)
                | None => (EmptyString, Some "cannot read file")
                end).1
           end)
    with (default EmptyString (read_file (fs w2) (filepath_Join [dir; "style.css"])))
    by (by destruct (read_file (fs w2) (filepath_Join [dir; "style.css"]))).
  by rewrite (bind_Ok _ _ _ _ _ (os_WriteFile_written _ _ _)).
Qed.

Lemma can_write_written path data w path' :
  can_write (fs (written path data w)) path' = can_write (fs w) path'.
Proof.
  unfold written, os_WriteFile.
  destruct (can_write (fs w) path) eqn:Hw; [|done]. simpl.
  unfold can_write in *. simpl.
  destruct (decide (path = path')) as [<-|Hne].
  - rewrite lookup_insert_eq. rewrite Hw.
    apply andb_true_iff in Hw as [-> _]. done.
  - by rewrite lookup_insert_ne.
Qed.

Lemma write_error_written path data w path' :
  write_error (fs (written path data w)) path' = write_error (fs w) path'.
Proof. unfold write_error. by rewrite can_write_written. Qed.

Lemma read_written path data w :
  can_write (fs w) path = true →
  read_file (fs (written path data w)) path = Some data.
Proof.
  intros Hw. unfold written, os_WriteFile. rewrite Hw. simpl.
  unfold read_file, write_file. simpl. by rewrite lookup_insert_eq.
Qed.

(** The log of a bundled app: the three writes and nothing else. *)
Lemma log_bundled app dir js w :
  let g := cfg w in
  let manifest := manifest_content (fs w) dir in
  let w1 := written (artifact g app ".json") manifest w in
  let chunk := jsTemplate ("spicetify-routes-" +:+ app)
                 (payload (fs w1) dir (manifest_files manifest) js) in
  let w2 := written (artifact g app ".js") chunk w1 in
  let css := default EmptyString
               (read_file (fs w2) (filepath_Join [dir; "style.css"])) in
  log (bundled app dir js w)
  = log w ++ [Write (artifact g app ".json") manifest
                (write_error (fs w) (artifact g app ".json"));
              Write (artifact g app ".js") chunk
                (write_error (fs w) (artifact g app ".js"));
              Write (artifact g app ".css") css
                (write_error (fs w) (artifact g app ".css"))].
Proof.
  intros g manifest w1 chunk w2 css. unfold bundled.
  fold g manifest. fold w1. fold chunk. fold w2. fold css.
  subst w2 w1. rewrite !log_written, !write_error_written.
  by rewrite <- !app_assoc.
Qed.




(** C10. For a custom app that is found and has a readable index.js, the
    errors of the three writes are dropped: whichever of the writes of the
    .json, .js and .css artifacts fail, the item ends normally, the same
    three writes are attempted in the same order, nothing else is logged
    (no error is reported), and the loop goes on with the next app. *)
Theorem pushApps_ignores_write_errors
    (w : World) (app dir js : string) (rest : list string) :
  getCustomAppPath app w = Ok (dir, None) w →
  read_file (fs w) (filepath_Join [dir; "index.js"]) = Some js →
  ∃ w' d1 d2 d3,
    pushApps_item app w = Ok () w'
    ∧ log w' = log w ++
        [Write (artifact (cfg w) app ".json") d1
               (write_error (fs w) (artifact (cfg w) app ".json"));
         Write (artifact (cfg w) app ".js") d2
               (write_error (fs w) (artifact (cfg w) app ".js"));
         Write (artifact (cfg w) app ".css") d3
               (write_error (fs w) (artifact (cfg w) app ".css"))]
    ∧ pushApps (app :: rest) w = pushApps rest w'.
Proof.
  intros Hdir Hjs.
  pose proof (pushApps_item_bundled w app dir js Hdir Hjs) as Hitem.
  exists (bundled app dir js w). do 3 eexists.
  split; [exact Hitem|]. split; [apply log_bundled|].
  by rewrite pushApps_cons, (bind_Ok _ _ _ _ _ Hitem).
Qed.

End CmdFacts.

(** ** What a run appends to the log *)

Create HintDb appends.

Section TraceFacts.
Context `{P : Platform}.
Import GoStrings Trace.

Lemma appends_ret {A} Q (a : A) : appends Q (ret a).
Proof. intros w. exists []. simpl. by rewrite app_nil_r. Qed.

Lemma appends_quiet {A} Q (f : World → A) : appends Q (λ w, Ok (f w) w).
Proof. intros w. exists []. simpl. by rewrite app_nil_r. Qed.

Lemma appends_os_Exit {A} Q code : appends Q (@os_Exit A code).
Proof. intros w. exists []. simpl. by rewrite app_nil_r. Qed.

Lemma appends_panic {A} Q : appends Q (@panic A).
Proof. intros w. exists []. simpl. by rewrite app_nil_r. Qed.

Lemma appends_emit Q e : Q e → appends Q (emit e).
Proof. intros He w. exists [e]. simpl. by split; [|constructor]. Qed.

Lemma appends_bind {A B} Q (m : Cmd A) (k : A → Cmd B) :
  appends Q m → (∀ a, appends Q (k a)) → appends Q (bind m k).
Proof.
  intros Hm Hk w. destruct (Hm w) as (evs & Hlog & Hall). unfold bind.
  destruct (m w) as [a w'|code w'|w']; simpl in *; [|by eauto..].
  destruct (Hk a w') as (evs' & Hlog' & Hall').
  exists (evs ++ evs'). split.
  - by rewrite Hlog', Hlog, app_assoc.
  - by apply Forall_app.
Qed.

Lemma appends_range {A} Q (l : list A) (body : A → Cmd unit) :
  (∀ x, appends Q (body x)) → appends Q (range l body).
Proof.
  intros Hbody. induction l as [|x l IH]; simpl.
  - apply appends_ret.
  - by apply appends_bind.
Qed.

Lemma appends_os_WriteFile Q path data :
  (∀ err, Q (Write path data err)) → appends Q (os_WriteFile path data).
Proof.
  intros HQ w. unfold os_WriteFile.
  destruct (can_write _ _); simpl; eexists; (split; [done|]); by constructor.
Qed.

Lemma appends_invoke Q c :
  (∀ st, Q (Call c st)) → appends Q (invoke c).
Proof.
  intros HQ w. unfold invoke.
  destruct (collaborator c (cfg w) (fs w)) as [f [err|code]]; simpl;
    eexists; (split; [done|]); by constructor.
Qed.

(** Splitting a log at an injection event that cannot be in its first
    part. *)
Lemma split_after_quiet (l1 l2 pre post : list event) e :
  l1 ++ l2 = pre ++ e :: post →
  Forall (λ x, is_injection x = false) l1 →
  is_injection e = true →
  ∃ j, pre = l1 ++ j ∧ l2 = j ++ e :: post.
Proof.
  revert pre. induction l1 as [|x l1 IH]; intros pre Heq Hall He.
  - exists pre. by simpl in *.
  - apply Forall_cons in Hall as [Hx Hall].
    destruct pre as [|y pre]; simpl in Heq; injection Heq as -> Heq.
    + congruence.
    + destruct (IH pre Heq Hall He) as (j & -> & ->). by exists j.
Qed.

Lemma filter_is_copy_none (l : list event) :
  Forall (λ x, is_copy x = false) l → List.filter is_copy l = [].
Proof.
  induction 1 as [|x l Hx _ IH]; simpl; [done|]. by rewrite Hx.
Qed.

(** *** The injection steps make no copy *)

Ltac appends_step :=
  first
    [ solve [eauto with appends]
    | progress cbv zeta
    | apply appends_ret
    | apply appends_os_Exit
    | apply appends_panic
    | apply appends_emit; reflexivity
    | apply appends_os_WriteFile; intros; reflexivity
    | apply appends_invoke; intros; reflexivity
    | apply appends_quiet
    | apply appends_range; intros
    | apply appends_bind; [|intros]
    | match goal with
      | |- appends _ (if ?b then _ else _) => destruct b
      | |- appends _ (match ?x with _ => _ end) => destruct x
      end ].

Ltac appends_auto := repeat appends_step.

Lemma no_copy_getExtensionPath name : appends no_copy (getExtensionPath name).
Proof. unfold getExtensionPath, globals, os_Stat. appends_auto. Qed.

Lemma no_copy_getCustomAppPath name : appends no_copy (getCustomAppPath name).
Proof. unfold getCustomAppPath, globals, os_Stat. appends_auto. Qed.

Lemma no_copy_CopyFile src dest : appends no_copy (CopyFile src dest).
Proof. unfold CopyFile, os_ReadFile. appends_auto. Qed.

Lemma no_copy_ModifyFile path repl : appends no_copy (ModifyFile path repl).
Proof. unfold ModifyFile, os_ReadFile. appends_auto. Qed.

#[local] Hint Resolve no_copy_getExtensionPath no_copy_getCustomAppPath
  no_copy_CopyFile no_copy_ModifyFile : appends.

Lemma no_copy_pushExtensions l : appends no_copy (pushExtensions l).
Proof.
  unfold pushExtensions, pushExtensions_item, pushExtensions_copy,
    PrintError, globals.
  appends_auto.
Qed.

Lemma no_copy_pushApps_subfiles dir files :
  ∀ acc, appends no_copy (pushApps_subfiles dir files acc).
Proof.
  induction files as [|subfile files IH]; intros acc; simpl.
  - apply appends_ret.
  - unfold os_ReadFile. appends_auto; apply IH.
Qed.

#[local] Hint Resolve no_copy_pushApps_subfiles : appends.

Lemma no_copy_pushApps l : appends no_copy (pushApps l).
Proof.
  unfold pushApps, pushApps_item, PrintError, globals, os_ReadFile.
  appends_auto.
Qed.

Lemma no_copy_nodeModuleSymlink : appends no_copy nodeModuleSymlink.
Proof.
  unfold nodeModuleSymlink, PrintBold, PrintError, PrintGreen, globals.
  appends_auto.
Qed.

#[local] Hint Resolve no_copy_pushExtensions no_copy_pushApps
  no_copy_nodeModuleSymlink : appends.

Lemma no_copy_Apply_inject : appends no_copy Apply_inject.
Proof.
  unfold Apply_inject, updateCSS, updateAssets, PrintBold, PrintGreen,
    PrintSuccess, PrintInfo, globals.
  appends_auto.
Qed.

(** *** The gate and the asset installer *)

(** [checkStates] touches nothing but the log, and logs messages and the
    prompt only. *)
Lemma checkStates_world w :
  ∃ evs, world_of (checkStates w) = logged w evs
         ∧ Forall (λ e, is_injection e = false) evs
         ∧ Forall no_copy evs.
Proof.
  unfold checkStates, bind, globals, backupstatus_Get_now,
    spotifystatus_Get_now, ReadAnswer, PrintError, PrintWarning, PrintInfo,
    emit, os_Exit, ret.
  destruct (IsEmpty _); [destruct (IsBackupable _)|
    destruct (IsOutdated _);
      [destruct (IsMixed _); [|destruct (IsStock _)];
       destruct (user_answer _ _ _)|]];
    simpl; unfold logged; rewrite <- ?app_assoc; simpl;
    try (eexists; split; [reflexivity|split; repeat constructor]).
  exists []. rewrite app_nil_r. by destruct w.
Qed.

(** The asset installer appends no injection step, and when it returns,
    the copies it has made are those of [copies_of]. *)
Lemma Apply_assets_log w :
  ∃ evs, log (world_of (Apply_assets w)) = log w ++ evs
         ∧ Forall (λ e, is_injection e = false) evs
         ∧ (∀ w', Apply_assets w = Ok () w' →
              List.filter is_copy evs
              = copies_of (IsApplied (spotifystatus_Get (appDestPath (cfg w)) (fs w)))
                          (cfg w)).
Proof.
  destruct w as [f g l].
  unfold Apply_assets, bind, globals, spotifystatus_Get_now, invoke,
    fatal_if, Fatal, PrintBold, PrintGreen, emit, os_Exit, ret,
    copies_of, raw_copy, themed_copy.
  simpl.
  destruct (IsApplied _), (replaceColors g); simpl;
    repeat (match goal with
            | |- context [collaborator ?c ?g ?f] =>
                is_var f;
                destruct (collaborator c g f) as [? [[?|]|?]]; simpl
            end);
    rewrite <- ?app_assoc; simpl;
    eexists; (split; [reflexivity|]);
    (split; [repeat constructor|intros w' Hw'; try discriminate; reflexivity]).
Qed.

Lemma world_of_bind_Ok {A B} (m : Cmd A) (k : A → Cmd B) w a w' :
  m w = Ok a w' → world_of (bind m k w) = world_of (k a w').
Proof. intros H. by rewrite (bind_Ok _ _ _ _ _ H). Qed.

Lemma world_of_bind_stop {A B} (m : Cmd A) (k : A → Cmd B) w :
  (∀ a w', m w ≠ Ok a w') → world_of (bind m k w) = world_of (m w).
Proof.
  intros H. unfold bind. destruct (m w) as [a w'|code w'|w']; [|done..].
  by destruct (H a w').
Qed.

(** C4 (as worded, refuted). On a host that was never applied, with
    [replace_colors] on, the raw copy and the themed copy both run before
    the user.css transfer. *)
Lemma Apply_makes_two_copies :
  ¬ one_copy_before_injection (P := Demo.platform true) Demo.fresh_host.
Proof.
  intros H.
  assert (Hlog : log (world_of (Apply (P := Demo.platform true) Demo.fresh_host))
                 = log Demo.fresh_host ++ Demo.before_user_css
                   ++ Demo.user_css :: Demo.after_user_css)
    by (vm_compute; reflexivity).
  specialize (H _ _ _ Hlog eq_refl). clear Hlog.
  change (2%nat = 1%nat) in H. lia.
Qed.

(** C4 (amended). In every run of [Apply], before any injection step
    executes, the copies into the destination that have run are, each of
    them successful and in this order: the raw copy and then the themed
    copy when the host was not applied and [replaceColors] is on; the raw
    copy alone when [replaceColors] is off; the themed copy alone when the
    host was already applied and [replaceColors] is on. So at least one
    copy and at most two have populated the destination, the raw copy and
    the themed copy at most once each. *)
Theorem Apply_copies_before_injection
    (w : World) (pre post : list event) (e : event) :
  log (world_of (Apply w)) = log w ++ pre ++ e :: post →
  is_injection e = true →
  ∃ g, InitSetting_globals (cfg w) (fs w) = inl g
       ∧ List.filter is_copy pre
         = copies_of (IsApplied (spotifystatus_Get (appDestPath g) (fs w))) g
       ∧ (1 ≤ length (List.filter is_copy pre) ≤ 2)%nat.
Proof.
  intros Hlog He.
  assert (Hcontra : ∀ evs, Forall (λ x, is_injection x = false) evs →
                           log w ++ evs = log w ++ pre ++ e :: post → False).
  { intros evs Hall Heq. apply app_inv_head in Heq.
    rewrite <- (app_nil_r evs) in Heq.
    destruct (split_after_quiet _ _ _ _ _ Heq Hall He) as (j & _ & Hnil).
    by destruct j. }
  destruct (checkStates_world w) as (gs & Hgate & Hgs & Hgs').
  unfold Apply in Hlog.
  destruct (checkStates w) as [[] w1|code w1|w1] eqn:Hcs; simpl in Hgate;
    subst w1;
    [|rewrite world_of_bind_stop in Hlog by (intros ? ?; by rewrite Hcs);
      rewrite Hcs in Hlog; by destruct (Hcontra gs)..].
  rewrite (world_of_bind_Ok _ _ _ _ _ Hcs) in Hlog.
  unfold InitSetting at 1 in Hlog. unfold bind at 1 in Hlog.
  cbn [fs cfg log logged] in Hlog.
  destruct (InitSetting_globals (cfg w) (fs w)) as [g|code];
    [|by destruct (Hcontra gs)].
  exists g. split; [done|].
  set (w2 := mkWorld (fs w) g (log w ++ gs)) in *.
  destruct (Apply_assets_log w2) as (cs & Hassets & Hcs' & Hcopies).
  destruct (Apply_assets w2) as [[] w3|code w3|w3] eqn:Ha;
    [|rewrite world_of_bind_stop in Hlog by (intros ? ?; by rewrite Ha);
      rewrite Ha in Hlog; simpl in Hlog, Hassets;
      rewrite Hassets in Hlog; simpl in Hlog; rewrite <- app_assoc in Hlog;
      destruct (Hcontra (gs ++ cs)); [by apply Forall_app|done]..].
  rewrite (world_of_bind_Ok _ _ _ _ _ Ha) in Hlog.
  destruct (no_copy_Apply_inject w3) as (js & Hinject & Hjs).
  simpl in Hassets.
  rewrite Hinject, Hassets in Hlog. simpl in Hlog.
  rewrite <- !app_assoc in Hlog. apply app_inv_head in Hlog.
  rewrite app_assoc in Hlog.
  destruct (split_after_quiet _ _ _ _ _ Hlog) as (j & -> & ->);
    [by apply Forall_app|done|].
  apply Forall_app in Hjs as [Hj _].
  rewrite !List.filter_app.
  rewrite (filter_is_copy_none gs Hgs'), (filter_is_copy_none j Hj).
  rewrite app_nil_r. simpl.
  rewrite (Hcopies w3 eq_refl). simpl. split; [done|].
  unfold copies_of.
  destruct (IsApplied _), (replaceColors g); simpl; lia.
Qed.

End TraceFacts.

(** ** The properties at concrete worlds *)

Module Witnesses.
Import GoStrings Trace.



Lemma resolution_prefers_user_folder_witness :
  (stat (fs Demo.both_folders) "/home/u/Extensions/a.js" = true
   ∧ stat (fs Demo.both_folders) "/opt/spicetify/Extensions/a.js" = true
   ∧ getExtensionPath (P := Demo.platform true) "a.js" Demo.both_folders
     = Ok ("/home/u/Extensions/a.js", None) Demo.both_folders)
  ∧ (stat (fs Demo.both_folders) "/home/u/CustomApps/demo" = true
     ∧ stat (fs Demo.both_folders) "/opt/spicetify/CustomApps/demo" = true
     ∧ getCustomAppPath (P := Demo.platform true) "demo" Demo.both_folders
       = Ok ("/home/u/CustomApps/demo", None) Demo.both_folders)
  ∧ (stat (fs Demo.both_folders) "/home/u/Extensions/b.js" = false
     ∧ stat (fs Demo.both_folders) "/opt/spicetify/Extensions/b.js" = false
     ∧ Demo.IsAbs "b.js" = false
     ∧ pushExtensions (P := Demo.platform true) ["b.js"; "a.js"] Demo.both_folders
       = pushExtensions (P := Demo.platform true) ["a.js"]
           (logged Demo.both_folders
              [Print PError ("Extension " +:+ q "b.js" +:+ " not found.")])).
Proof.
  pose proof (resolution_prefers_user_folder (P := Demo.platform true)
                Demo.both_folders "a.js") as Ta.
  pose proof (resolution_prefers_user_folder (P := Demo.platform true)
                Demo.both_folders "demo") as Td.
  pose proof (resolution_prefers_user_folder (P := Demo.platform true)
                Demo.both_folders "b.js") as Tb.
  cbv zeta in Ta, Td, Tb.
  split; [|split].
  - split; [reflexivity|]. split; [reflexivity|].
    exact (proj1 Ta eq_refl).
  - split; [reflexivity|]. split; [reflexivity|].
    exact (proj1 (proj2 (proj2 (proj2 Td))) eq_refl).
  - split; [reflexivity|]. split; [reflexivity|]. split; [reflexivity|].
    exact (proj2 (proj1 (proj2 (proj2 Tb)) eq_refl eq_refl) eq_refl ["a.js"]).
Defined.

Lemma pushApps_skips_app_without_index_witness :
  getCustomAppPath (P := Demo.platform true) "demo" Demo.app_no_index
  = Ok ("/home/u/CustomApps/demo", None) Demo.app_no_index
  ∧ read_file (fs Demo.app_no_index) "/home/u/CustomApps/demo/index.js" = None
  ∧ pushApps_item (P := Demo.platform true) "demo" Demo.app_no_index
    = Ok () (logged Demo.app_no_index
               [Print PError ("Custom app " +:+ q "demo"
                              +:+ " does not have index.js")])
  ∧ fs (logged Demo.app_no_index
          [Print PError ("Custom app " +:+ q "demo"
                         +:+ " does not have index.js")])
    = fs Demo.app_no_index
  ∧ pushApps (P := Demo.platform true) ["demo"; "other"] Demo.app_no_index
    = pushApps (P := Demo.platform true) ["other"]
        (logged Demo.app_no_index
           [Print PError ("Custom app " +:+ q "demo"
                          +:+ " does not have index.js")]).
Proof.
  assert (Hdir : getCustomAppPath (P := Demo.platform true) "demo" Demo.app_no_index
                 = Ok ("/home/u/CustomApps/demo", None) Demo.app_no_index)
    by reflexivity.
  assert (Hjs : read_file (fs Demo.app_no_index)
                  (filepath_Join (Platform := Demo.platform true)
                     ["/home/u/CustomApps/demo"; "index.js"]) = None)
    by reflexivity.
  split; [exact Hdir|]. split; [exact Hjs|].
  exact (pushApps_skips_app_without_index (P := Demo.platform true)
           Demo.app_no_index "demo" "/home/u/CustomApps/demo" ["other"]
           Hdir Hjs).
Defined.



(** The destination refuses the .json artifact: the write fails, the .js
    and .css artifacts are written all the same and the next app is
    processed. *)
Lemma pushApps_ignores_write_errors_witness :
  let P := Demo.platform true in
  let w := Demo.app_denied in
  getCustomAppPath "demo" w = Ok ("/home/u/CustomApps/demo", None) w
  ∧ read_file (fs w) "/home/u/CustomApps/demo/index.js" = Some "A"
  ∧ write_error (fs w) "/spotify/Apps/xpui/spicetify-routes-demo.json"
    = Some "cannot write file"
  ∧ ∃ w' d1 d2 d3,
      pushApps_item "demo" w = Ok () w'
      ∧ log w' = log w ++
          [Write "/spotify/Apps/xpui/spicetify-routes-demo.json" d1
                 (Some "cannot write file");
           Write "/spotify/Apps/xpui/spicetify-routes-demo.js" d2 None;
           Write "/spotify/Apps/xpui/spicetify-routes-demo.css" d3 None]
      ∧ pushApps ["demo"; "other"] w = pushApps ["other"] w'.
Proof.
  intros P w.
  assert (Hdir : getCustomAppPath "demo" w
                 = Ok ("/home/u/CustomApps/demo", None) w) by reflexivity.
  assert (Hjs : read_file (fs w)
                  (filepath_Join ["/home/u/CustomApps/demo"; "index.js"])
                = Some "A") by reflexivity.
  split; [exact Hdir|]. split; [exact Hjs|]. split; [reflexivity|].
  exact (pushApps_ignores_write_errors w "demo" "/home/u/CustomApps/demo" "A"
           ["other"] Hdir Hjs).
Defined.

(** A host never applied, with [replace_colors] on: before the user.css
    transfer the raw copy and then the themed copy have run. *)
Lemma Apply_copies_before_injection_witness :
  let P := Demo.platform true in
  let w := Demo.fresh_host in
  log (world_of (Apply w))
  = log w ++ Demo.before_user_css ++ Demo.user_css :: Demo.after_user_css
  ∧ is_injection Demo.user_css = true
  ∧ ∃ g, InitSetting_globals (cfg w) (fs w) = inl g
         ∧ List.filter is_copy Demo.before_user_css
           = copies_of (IsApplied (spotifystatus_Get (appDestPath g) (fs w))) g
         ∧ (1 ≤ length (List.filter is_copy Demo.before_user_css) ≤ 2)%nat.
Proof.
  intros P w.
  assert (Hlog : log (world_of (Apply w))
                 = log w ++ Demo.before_user_css
                   ++ Demo.user_css :: Demo.after_user_css)
    by (vm_compute; reflexivity).
  split; [exact Hlog|]. split; [reflexivity|].
  exact (Apply_copies_before_injection w _ _ _ Hlog eq_refl).
Defined.

(** A subfile of the manifest that does not exist is left out of the
    script. *)
Example pushApps_skips_missing_subfile :
  log (world_of (pushApps (P := Demo.platform true) ["demo"]
                   Demo.app_missing_subfile))
  = [Write "/spotify/Apps/xpui/spicetify-routes-demo.json"
           Demo.manifest_missing None;
     Write "/spotify/Apps/xpui/spicetify-routes-demo.js"
           (jsTemplate "spicetify-routes-demo" ("A" +:+ str1 nl +:+ "B")) None;
     Write "/spotify/Apps/xpui/spicetify-routes-demo.css" EmptyString None].
Proof. vm_compute. reflexivity. Qed.

(** The module script installed by [pushExtensions] has its second line
    rewritten. *)
Example pushExtensions_remaps_module_script :
  read_file (fs (world_of (pushExtensions (P := Demo.platform true) ["m.mjs"]
                             Demo.with_module_script)))
            "/spotify/Apps/xpui/m.mjs"
  = Some ("// spicetify_map{foo}{bar}" +:+ str1 nl +:+ "bar.init()").
Proof. vm_compute. reflexivity. Qed.

End Witnesses.

(** ** The version gate, further *)

Section GateFacts.
Context `{P : Platform}.
Import Observe.

(** X1. With a backup that is neither empty nor outdated, [checkStates]
    returns at once: nothing is printed, nothing is asked, the world is as
    it was. *)
Theorem checkStates_current_backup_proceeds (w : World) :
  IsEmpty (backStat_of w) = false →
  IsOutdated (backStat_of w) = false →
  checkStates w = Ok () w.
Proof.
  intros Hempty Houtdated.
  unfold checkStates, bind, globals, backupstatus_Get_now,
    spotifystatus_Get_now. simpl.
  unfold backStat_of in Hempty, Houtdated. by rewrite Hempty, Houtdated.
Qed.

(** [checkStates] ends normally or with exit status 1, and only logs. *)
Lemma checkStates_shape (w : World) :
  ∃ evs, (checkStates w = Ok () (logged w evs)
          ∨ checkStates w = Exit 1 (logged w evs))
         ∧ Forall (λ e, is_print e || is_ask e = true) evs
         ∧ (length (List.filter is_ask evs) ≤ 1)%nat
         ∧ (∀ w', checkStates w = Ok () w' → IsEmpty (backStat_of w) = false).
Proof.
  unfold checkStates, bind, globals, backupstatus_Get_now,
    spotifystatus_Get_now, ReadAnswer, PrintError, PrintWarning, PrintInfo,
    emit, os_Exit, ret, backStat_of.
  destruct (IsEmpty _); [destruct (IsBackupable _)|
    destruct (IsOutdated _);
      [destruct (IsMixed _); [|destruct (IsStock _)];
       destruct (user_answer _ _ _)|]];
    simpl; unfold logged; rewrite <- ?app_assoc; simpl;
    try (eexists; split; [(by left) || (by right)|];
         split; [repeat constructor|];
         split; [simpl; lia|]; by intros w').
  exists []. rewrite app_nil_r. split; [left; by destruct w|].
  split; [constructor|]. split; [simpl; lia|done].
Qed.

(** X2. Whatever the states, [checkStates] changes neither the files nor
    the configuration: it only adds messages and at most one prompt to the
    log; it never panics, its only exit status is 1, and it returns normally
    only when the backup is not empty. *)
Theorem checkStates_only_logs (w : World) :
  ∃ evs, (checkStates w = Ok () (logged w evs)
          ∨ checkStates w = Exit 1 (logged w evs))
         ∧ Forall (λ e, is_print e || is_ask e = true) evs
         ∧ (length (List.filter is_ask evs) ≤ 1)%nat
         ∧ (∀ w', checkStates w = Ok () w' → IsEmpty (backStat_of w) = false).
Proof. apply checkStates_shape. Qed.

(** [Apply] stops at the gate or in [InitSetting], or goes on to the asset
    installer in a world that differs by the gate's log and the loaded
    configuration. *)
Lemma Apply_phases (w : World) :
  ∃ gs, Forall (λ e, is_print e || is_ask e = true) gs
        ∧ ((∃ code, Apply w = Exit code (logged w gs))
           ∨ (∃ g, InitSetting_globals (cfg w) (fs w) = inl g
                   ∧ Apply w = bind Apply_assets (λ _, Apply_inject)
                                 (mkWorld (fs w) g (log w ++ gs)))).
Proof.
  destruct (checkStates_shape w) as (gs & Hgate & Hgs & _).
  exists gs. split; [done|]. unfold Apply.
  destruct Hgate as [Hgate|Hgate].
  - rewrite (bind_Ok _ _ _ _ _ Hgate).
    assert (Hinit : InitSetting (logged w gs)
                    = match InitSetting_globals (cfg w) (fs w) with
                      | inl g => Ok () (mkWorld (fs w) g (log w ++ gs))
                      | inr code => Exit code (logged w gs)
                      end) by reflexivity.
    destruct (InitSetting_globals (cfg w) (fs w)) as [g|code].
    + right. exists g. split; [done|]. by rewrite (bind_Ok _ _ _ _ _ Hinit).
    + left. exists code. by rewrite (bind_Exit _ _ _ _ _ Hinit).
  - left. exists 1. by rewrite (bind_Exit _ _ _ _ _ Hgate).
Qed.

End GateFacts.

(** ** The asset installer, further *)

Section InstallerFacts.
Context `{P : Platform}.
Import Trace Observe.

Ltac split_at H :=
  repeat match type of H with
         | _ :: _ = ?pre ++ _ :: _ =>
             destruct pre as [|? pre]; simpl in H; injection H as ? H
         | [] = ?pre ++ _ :: _ => destruct pre; discriminate H
         end.

Ltac assets_cases f g :=
  unfold Apply_assets, bind, globals, spotifystatus_Get_now, invoke,
    fatal_if, Fatal, PrintBold, PrintGreen, emit, os_Exit, ret;
  simpl;
  destruct (IsApplied (spotifystatus_Get (appDestPath g) f)) eqn:Happlied,
    (replaceColors g) eqn:Hcolors; simpl;
  repeat (match goal with
          | |- context [collaborator ?c ?g ?f] =>
              is_var f;
              destruct (collaborator c g f) as [? [[?|]|?]]; simpl
          end);
  rewrite <- ?app_assoc; simpl.

(** What the asset installer logs: messages, removals and copies; a failed
    removal or copy is followed by the fatal message alone and by exit
    status 1; the destination is removed only on a host that is not
    applied, as the first thing the installer does. *)
Lemma Apply_assets_shape (w : World) :
  ∃ evs,
    log (world_of (Apply_assets w)) = log w ++ evs
    ∧ cfg (world_of (Apply_assets w)) = cfg w
    ∧ (∀ w', Apply_assets w ≠ Panic w')
    ∧ Forall (λ e, is_print e || is_install_event e = true) evs
    ∧ (∀ pre c e post,
         evs = pre ++ Call c (Returned (Some e)) :: post →
         post = [Print PFatal e]
         ∧ Apply_assets w = Exit 1 (world_of (Apply_assets w)))
    ∧ (∀ pre path st post,
         evs = pre ++ Call (os_RemoveAll path) st :: post →
         IsApplied (spotifystatus_Get (appDestPath (cfg w)) (fs w)) = false
         ∧ path = appDestPath (cfg w)
         ∧ pre = [Print PBold "Copying raw assets:"]).
Proof.
  destruct w as [f g l].
  assets_cases f g;
    (eexists; split; [reflexivity|]; split; [reflexivity|];
     split; [by intros w'|]; split; [repeat constructor|]; split;
     [intros pre c e post H; split_at H; by simplify_eq
     |intros pre path st post H; split_at H; by simplify_eq]).
Qed.

End InstallerFacts.

(** ** The transfer loops and the injection steps, further *)

Section InjectFacts.
Context `{P : Platform}.
Import GoStrings Trace Observe.

(** Where an event with mark [T] sits in a log whose first part has no
    such event. *)
Lemma split_after (T : event → bool) (l1 l2 pre post : list event) x :
  l1 ++ l2 = pre ++ x :: post →
  Forall (λ e, T e = false) l1 →
  T x = true →
  ∃ j, pre = l1 ++ j ∧ l2 = j ++ x :: post.
Proof.
  revert pre. induction l1 as [|y l1 IH]; intros pre Heq Hall Hx.
  - exists pre. by simpl in *.
  - apply Forall_cons in Hall as [Hy Hall].
    destruct pre as [|z pre]; simpl in Heq; injection Heq as -> Heq.
    + congruence.
    + destruct (IH pre Heq Hall Hx) as (j & -> & ->). by exists j.
Qed.

(** The same when it is the last part that has no such event. *)
Lemma split_before (T : event → bool) (l1 l2 pre post : list event) x :
  l1 ++ l2 = pre ++ x :: post →
  Forall (λ e, T e = false) l2 →
  T x = true →
  ∃ j, l1 = pre ++ x :: j ∧ post = j ++ l2.
Proof.
  revert pre. induction l1 as [|y l1 IH]; intros pre Heq Hall Hx.
  - simpl in Heq. subst l2. apply Forall_app in Hall as [_ Hall].
    apply Forall_cons in Hall as [Hx' _]. congruence.
  - destruct pre as [|z pre]; simpl in Heq; injection Heq as -> Heq.
    + exists l1. by subst.
    + destruct (IH pre Heq Hall Hx) as (j & -> & ->). by exists j.
Qed.

Lemma appends_impl {A} (Q Q' : event → Prop) (m : Cmd A) :
  (∀ e, Q e → Q' e) → appends Q m → appends Q' m.
Proof.
  intros HQ Hm w. destruct (Hm w) as (evs & Hlog & Hall).
  exists evs. split; [done|]. by eapply Forall_impl.
Qed.

(** What follows a command in a [bind] only appends to what the command
    has logged. *)
Lemma appends_after {A B} Q (m : Cmd A) (k : A → Cmd B) :
  (∀ a, appends Q (k a)) →
  ∀ w, ∃ js, log (world_of (bind m k w)) = log (world_of (m w)) ++ js
             ∧ Forall Q js.
Proof.
  intros Hk w. unfold bind.
  destruct (m w) as [a w'|code w'|w']; simpl.
  - apply Hk.
  - exists []. by rewrite app_nil_r.
  - exists []. by rewrite app_nil_r.
Qed.

Section Shape.
Variable Q : event → Prop.
Hypothesis Q_error : ∀ msg, Q (Print PError msg).
Hypothesis Q_write : ∀ path data err, Q (Write path data err).

Ltac shape_step :=
  first
    [ solve [eauto with appends]
    | progress cbv zeta
    | apply appends_ret
    | apply appends_os_Exit
    | apply appends_panic
    | apply appends_emit; solve [auto]
    | apply appends_os_WriteFile; intros; solve [auto]
    | apply appends_invoke; intros; solve [auto]
    | apply appends_quiet
    | apply appends_range; intros
    | apply appends_bind; [|intros]
    | match goal with
      | |- appends _ (if ?b then _ else _) => destruct b
      | |- appends _ (match ?x with _ => _ end) => destruct x
      end ].

Lemma shape_getExtensionPath name : appends Q (getExtensionPath name).
Proof. unfold getExtensionPath, globals, os_Stat. repeat shape_step. Qed.

Lemma shape_getCustomAppPath name : appends Q (getCustomAppPath name).
Proof. unfold getCustomAppPath, globals, os_Stat. repeat shape_step. Qed.

Lemma shape_CopyFile src dest : appends Q (CopyFile src dest).
Proof. unfold CopyFile, os_ReadFile. repeat shape_step. Qed.

Lemma shape_ModifyFile path repl : appends Q (ModifyFile path repl).
Proof. unfold ModifyFile, os_ReadFile. repeat shape_step. Qed.

Hint Resolve shape_getExtensionPath shape_getCustomAppPath
  shape_CopyFile shape_ModifyFile : appends.

Lemma shape_pushExtensions l : appends Q (pushExtensions l).
Proof.
  unfold pushExtensions, pushExtensions_item, pushExtensions_copy,
    PrintError, globals.
  repeat shape_step.
Qed.

Lemma shape_pushApps_subfiles dir files :
  ∀ acc, appends Q (pushApps_subfiles dir files acc).
Proof.
  induction files as [|subfile files IH]; intros acc; simpl.
  - apply appends_ret.
  - unfold os_ReadFile. repeat shape_step; apply IH.
Qed.

Hint Resolve shape_pushApps_subfiles : appends.

Lemma shape_pushApps l : appends Q (pushApps l).
Proof.
  unfold pushApps, pushApps_item, PrintError, globals, os_ReadFile.
  repeat shape_step.
Qed.

Hint Resolve shape_pushExtensions shape_pushApps : appends.

Hypothesis Q_print : ∀ p msg, Q (Print p msg).
Hypothesis Q_junction : ∀ src dest st, Q (Call (utils_CreateJunction src dest) st).

Lemma shape_nodeModuleSymlink : appends Q nodeModuleSymlink.
Proof.
  unfold nodeModuleSymlink, PrintBold, PrintError, PrintGreen, globals.
  repeat shape_step.
Qed.

Hint Resolve shape_nodeModuleSymlink : appends.

Hypothesis Q_assets : ∀ dest theme st, Q (Call (apply_UserAsset dest theme) st).
Hypothesis Q_options :
  ∀ dest exts apps st, Q (Call (apply_AdditionalOptions dest exts apps) st).
Hypothesis Q_patch : ∀ st, Q (Call cmd_Patch st).

Lemma updateCSS_eq (w : World) :
  updateCSS w
  = let c := apply_UserCSS (appDestPath (cfg w))
               (if negb (injectCSS (cfg w)) then EmptyString
                else themeFolder (cfg w))
               (colorSection (cfg w)) in
    let r := collaborator c (cfg w) (fs w) in
    let w' := mkWorld r.1 (cfg w) (log w ++ [Call c r.2]) in
    match r.2 with
    | Returned _ => Ok () w'
    | Died code => Exit code w'
    end.
Proof.
  unfold updateCSS, bind, globals, invoke, ret. simpl.
  by destruct (collaborator _ _ _) as [f [err|code]].
Qed.

(** The injection steps begin with the user.css transfer; what follows
    satisfies [Q]. *)
Lemma shape_Apply_inject (w : World) :
  ∃ st js,
    log (world_of (Apply_inject w))
    = log w ++ Print PBold "Transferring user.css:"
        :: Call (apply_UserCSS (appDestPath (cfg w))
                   (if negb (injectCSS (cfg w)) then EmptyString
                    else themeFolder (cfg w))
                   (colorSection (cfg w))) st
        :: js
    ∧ Forall Q js.
Proof.
  unfold Apply_inject. unfold bind at 1. unfold globals at 1. cbv beta iota.
  erewrite bind_Ok; [|reflexivity].
  match goal with
  | |- context [bind updateCSS ?k ?w1] =>
      destruct (appends_after Q updateCSS k) with (w := w1) as (js & Hlog & Hjs)
  end.
  { intros _. unfold updateAssets, PrintBold, PrintGreen, PrintSuccess,
      PrintInfo, globals. repeat shape_step. }
  rewrite Hlog, updateCSS_eq. cbv zeta. cbn [fs cfg log].
  destruct (collaborator _ _ _) as [f st]. cbn [fst snd].
  exists st, js. split; [|done].
  destruct st; cbn [world_of log]; by rewrite <- !app_assoc.
Qed.

End Shape.

Lemma no_marked (T : event → bool) (l pre post : list event) x :
  Forall (λ e, T e = false) l → l = pre ++ x :: post → T x = true → False.
Proof.
  intros Hall -> Hx. apply Forall_app in Hall as [_ Hall].
  apply Forall_cons in Hall as [Hx' _]. congruence.
Qed.

(** The log of a run of [Apply], phase by phase. *)
Lemma Apply_log_shape (Q : event → Prop) (w : World) :
  (∀ p msg, Q (Print p msg)) →
  (∀ path data err, Q (Write path data err)) →
  (∀ c st, is_install c = false → Q (Call c st)) →
  ∃ gs, Forall (λ e, is_print e || is_ask e = true) gs
    ∧ ((∃ code, Apply w = Exit code (logged w gs))
       ∨ (∃ g evs,
            InitSetting_globals (cfg w) (fs w) = inl g
            ∧ log (world_of (Apply_assets (mkWorld (fs w) g (log w ++ gs))))
              = (log w ++ gs) ++ evs
            ∧ ((∃ code w3,
                  Apply_assets (mkWorld (fs w) g (log w ++ gs)) = Exit code w3
                  ∧ Apply w = Exit code w3)
               ∨ (∃ w3 st js,
                    Apply_assets (mkWorld (fs w) g (log w ++ gs)) = Ok () w3
                    ∧ log (world_of (Apply w))
                      = log w ++ gs ++ evs
                        ++ Print PBold "Transferring user.css:"
                        :: Call (apply_UserCSS (appDestPath g) (css_theme g)
                                   (colorSection g)) st
                        :: js
                    ∧ Forall Q js)))).
Proof.
  intros Qp Qw Qc.
  destruct (Apply_phases w) as (gs & Hgs & [Hstop|(g & Hinit & Happly)]).
  { exists gs. split; [done|]. by left. }
  exists gs. split; [done|]. right.
  set (w2 := mkWorld (fs w) g (log w ++ gs)) in *.
  destruct (Apply_assets_shape w2) as (evs & Hlog & Hcfg & Hpanic & _).
  exists g, evs. split; [done|]. split; [exact Hlog|].
  destruct (Apply_assets w2) as [[] w3|code w3|w3] eqn:Ha.
  - right. rewrite (bind_Ok _ _ _ _ _ Ha) in Happly.
    destruct (shape_Apply_inject Q) with (w := w3) as (st & js & Hinj & Hjs);
      [by auto..|].
    exists w3, st, js. split; [done|]. split; [|done].
    rewrite Happly, Hinj. simpl in Hlog, Hcfg. rewrite Hlog, Hcfg.
    by rewrite <- !app_assoc.
  - left. exists code, w3. split; [done|].
    by rewrite Happly, (bind_Exit _ _ _ _ _ Ha).
  - by destruct (Hpanic w3).
Qed.

(** X3. In every run of [Apply], a removal of the destination or a copy
    into it that fails is fatal: the failed call is followed in the log by
    the fatal message alone, and the run ends with exit status 1, so that
    no later copy and no injection step runs. *)
Theorem Apply_install_failure_is_fatal
    (w : World) (pre post : list event) (c : call) (e : string) :
  log (world_of (Apply w)) = log w ++ pre ++ Call c (Returned (Some e)) :: post →
  is_install c = true →
  post = [Print PFatal e] ∧ ∃ w', Apply w = Exit 1 w'.
Proof.
  intros Hlog Hc.
  destruct (Apply_log_shape (λ x, is_install_event x = false) w)
    as (gs & Hgs & Hcases); [done|done|by intros ? ? ?|].
  assert (Hgs' : Forall (λ x, is_install_event x = false) gs).
  { eapply Forall_impl; [exact Hgs|]. by intros [| | |]. }
  destruct Hcases as [(code & Hstop)|(g & evs & Hinit & Hassets & Hcases)].
  { rewrite Hstop in Hlog. simpl in Hlog. apply app_inv_head in Hlog.
    by destruct (no_marked is_install_event _ _ _ _ Hgs' Hlog). }
  set (w2 := mkWorld (fs w) g (log w ++ gs)) in *.
  destruct (Apply_assets_shape w2) as (evs' & Hlog' & _ & _ & _ & Hfatal & _).
  rewrite Hassets in Hlog'. apply app_inv_head in Hlog'. subst evs'.
  destruct Hcases as [(code & w3 & Ha & Happly)|(w3 & st & js & Ha & Hfull & Hjs)].
  - rewrite Happly in Hlog. rewrite Ha in Hassets. simpl in Hlog, Hassets.
    rewrite Hassets, <- app_assoc in Hlog. apply app_inv_head in Hlog.
    destruct (split_after is_install_event _ _ _ _ _ Hlog Hgs' Hc)
      as (j & -> & Hevs).
    destruct (Hfatal _ _ _ _ Hevs) as [-> Hexit].
    split; [done|]. rewrite Happly. rewrite Ha in Hexit.
    injection Hexit as ->. by eauto.
  - rewrite Hfull in Hlog. apply app_inv_head in Hlog.
    destruct (split_after is_install_event _ _ _ _ _ Hlog Hgs' Hc)
      as (j & -> & Hrest).
    destruct (split_before is_install_event _ _ _ _ _ Hrest) as (k & Hevs & _);
      [by repeat constructor|done|].
    destruct (Hfatal _ _ _ _ Hevs) as [_ Hexit]. by rewrite Ha in Hexit.
Qed.

(** X4. In every run of [Apply], the destination is removed only when the
    host is not applied; it is then the destination folder of the loaded
    configuration that is removed, and only messages and the prompt come
    before the removal: no copy and no injection step. *)
Theorem Apply_removes_before_copying
    (w : World) (pre post : list event) (path : string) (st : status) :
  log (world_of (Apply w)) = log w ++ pre ++ Call (os_RemoveAll path) st :: post →
  ∃ g, InitSetting_globals (cfg w) (fs w) = inl g
       ∧ IsApplied (spotifystatus_Get (appDestPath g) (fs w)) = false
       ∧ path = appDestPath g
       ∧ Forall (λ e, is_print e || is_ask e = true) pre.
Proof.
  intros Hlog.
  destruct (Apply_log_shape (λ x, is_removal x = false) w)
    as (gs & Hgs & Hcases); [done|done|by intros [] ? ?|].
  assert (Hgs' : Forall (λ x, is_removal x = false) gs).
  { eapply Forall_impl; [exact Hgs|]. by intros [| | |]. }
  destruct Hcases as [(code & Hstop)|(g & evs & Hinit & Hassets & Hcases)].
  { rewrite Hstop in Hlog. simpl in Hlog. apply app_inv_head in Hlog.
    by destruct (no_marked is_removal _ _ _ _ Hgs' Hlog). }
  exists g. split; [done|].
  set (w2 := mkWorld (fs w) g (log w ++ gs)) in *.
  destruct (Apply_assets_shape w2) as (evs' & Hlog' & _ & _ & _ & _ & Hremoval).
  rewrite Hassets in Hlog'. apply app_inv_head in Hlog'. subst evs'.
  assert (Hin : ∃ j post', pre = gs ++ j ∧ evs = j ++ Call (os_RemoveAll path) st :: post').
  { destruct Hcases as [(code & w3 & Ha & Happly)|(w3 & st' & js & Ha & Hfull & Hjs)].
    - rewrite Happly in Hlog. rewrite Ha in Hassets. simpl in Hlog, Hassets.
      rewrite Hassets, <- app_assoc in Hlog. apply app_inv_head in Hlog.
      destruct (split_after is_removal _ _ _ _ _ Hlog Hgs' eq_refl)
        as (j & -> & Hevs). by eauto.
    - rewrite Hfull in Hlog. apply app_inv_head in Hlog.
      destruct (split_after is_removal _ _ _ _ _ Hlog Hgs' eq_refl)
        as (j & -> & Hrest).
      destruct (split_before is_removal _ _ _ _ _ Hrest) as (k & Hevs & _);
        [by repeat constructor|done|]. by eauto. }
  destruct Hin as (j & post' & -> & Hevs).
  destruct (Hremoval _ _ _ _ Hevs) as (Happlied & -> & ->).
  split; [exact Happlied|]. split; [done|].
  apply Forall_app. split; [done|]. by repeat constructor.
Qed.

(** X5. In every run of [Apply], each file write and each call for the
    custom assets, the additional options, the patches or the junction
    comes after the user.css transfer; that transfer is made into the
    destination folder with the colour scheme of the configuration and with
    the theme folder, or with no theme at all when [inject_css] is off. *)
Theorem Apply_writes_after_user_css
    (w : World) (pre post : list event) (e : event) :
  log (world_of (Apply w)) = log w ++ pre ++ e :: post →
  is_later_step e = true →
  ∃ g st before after,
    InitSetting_globals (cfg w) (fs w) = inl g
    ∧ pre = before
            ++ Call (apply_UserCSS (appDestPath g)
                       (if negb (injectCSS g) then EmptyString else themeFolder g)
                       (colorSection g)) st
            :: after
    ∧ Forall (λ x, is_later_step x = false) before.
Proof.
  intros Hlog He.
  destruct (Apply_log_shape (λ _, True) w)
    as (gs & Hgs & Hcases); [done..|].
  assert (Hgs' : Forall (λ x, is_later_step x = false) gs).
  { eapply Forall_impl; [exact Hgs|]. by intros [| | |]. }
  destruct Hcases as [(code & Hstop)|(g & evs & Hinit & Hassets & Hcases)].
  { rewrite Hstop in Hlog. simpl in Hlog. apply app_inv_head in Hlog.
    by destruct (no_marked is_later_step _ _ _ _ Hgs' Hlog). }
  set (w2 := mkWorld (fs w) g (log w ++ gs)) in *.
  destruct (Apply_assets_shape w2) as (evs' & Hlog' & _ & _ & Hevs & _).
  rewrite Hassets in Hlog'. apply app_inv_head in Hlog'. subst evs'.
  assert (Hevs' : Forall (λ x, is_later_step x = false) evs).
  { eapply Forall_impl; [exact Hevs|]. by intros [? ?| |[] ?|]. }
  destruct Hcases as [(code & w3 & Ha & Happly)|(w3 & st & js & Ha & Hfull & Hjs)].
  - rewrite Happly in Hlog. rewrite Ha in Hassets. simpl in Hlog, Hassets.
    rewrite Hassets, <- app_assoc in Hlog. apply app_inv_head in Hlog.
    by destruct (no_marked is_later_step (gs ++ evs) pre post e);
      [apply Forall_app|..].
  - rewrite Hfull in Hlog. apply app_inv_head in Hlog.
    exists g, st.
    set (head := gs ++ evs ++ [Print PBold "Transferring user.css:"]).
    set (css := Call (apply_UserCSS (appDestPath g) (css_theme g) (colorSection g)) st) in *.
    assert (Hsplit : (head ++ [css]) ++ js = pre ++ e :: post).
    { rewrite <- Hlog. subst head. by rewrite <- !app_assoc. }
    assert (Hhead : Forall (λ x, is_later_step x = false) head).
    { subst head. apply Forall_app. split; [done|].
      apply Forall_app. split; [done|]. by repeat constructor. }
    destruct (split_after is_later_step _ _ _ _ _ Hsplit) as (j & -> & _);
      [apply Forall_app; split; [done|by repeat constructor]|done|].
    exists head, j. split; [done|]. split; [|done].
    by rewrite <- app_assoc.
Qed.

End InjectFacts.

(** ** How commands end and what they touch *)

Section ObserveFacts.
Context `{P : Platform}.
Import Observe.

Lemma ends_ret {A} E (a : A) : E Normal → ends_within E (ret a).
Proof. by intros HE w. Qed.

Lemma ends_quiet {A} E (f : World → A) : E Normal → ends_within E (λ w, Ok (f w) w).
Proof. by intros HE w. Qed.

Lemma ends_emit E e : E Normal → ends_within E (emit e).
Proof. by intros HE w. Qed.

Lemma ends_panic {A} E : E Panics → ends_within E (@panic A).
Proof. by intros HE w. Qed.

Lemma ends_os_WriteFile E path data : E Normal → ends_within E (os_WriteFile path data).
Proof. intros HE w. unfold os_WriteFile. by destruct (can_write _ _). Qed.

Lemma ends_bind {A B} E (m : Cmd A) (k : A → Cmd B) :
  ends_within E m → (∀ a, ends_within E (k a)) → ends_within E (bind m k).
Proof.
  intros Hm Hk w. specialize (Hm w). unfold bind.
  destruct (m w) as [a w'|code w'|w']; [apply Hk|done..].
Qed.

Lemma ends_range {A} E (l : list A) (body : A → Cmd unit) :
  E Normal → (∀ x, x ∈ l → ends_within E (body x)) →
  ends_within E (range l body).
Proof.
  intros HE. induction l as [|x l IH]; intros Hbody; simpl.
  - by apply ends_ret.
  - apply ends_bind; [apply Hbody; by left|].
    intros _. apply IH. intros y Hy. apply Hbody. by right.
Qed.

Lemma touches_ret {A} g S (a : A) : touches_only g S (ret a).
Proof. by intros w Hg. Qed.

Lemma touches_quiet {A} g S (f : World → A) : touches_only g S (λ w, Ok (f w) w).
Proof. by intros w Hg. Qed.

Lemma touches_emit g S e : touches_only g S (emit e).
Proof. by intros w Hg. Qed.

Lemma touches_panic {A} g S : touches_only g S (@panic A).
Proof. by intros w Hg. Qed.

Lemma touches_os_WriteFile g (S : string → Prop) path data :
  S path → touches_only g S (os_WriteFile path data).
Proof.
  intros HS w Hg. unfold os_WriteFile.
  destruct (can_write (fs w) path); simpl; [|done].
  split; [done|]. split; [done|]. split.
  - intros p Hp. rewrite lookup_insert_ne; [done|]. by intros ->.
  - intros p. unfold stat. simpl. rewrite !bool_decide_eq_true.
    destruct (decide (path = p)) as [->|Hne].
    + rewrite lookup_insert_eq. by eauto.
    + by rewrite lookup_insert_ne.
Qed.

Lemma touches_bind {A B} g S (m : Cmd A) (k : A → Cmd B) :
  touches_only g S m → (∀ a, touches_only g S (k a)) →
  touches_only g S (bind m k).
Proof.
  intros Hm Hk w Hg. destruct (Hm w Hg) as (Hc & Hd & Hn & Hs). unfold bind.
  destruct (m w) as [a w'|code w'|w']; simpl in *; [|done..].
  destruct (Hk a w' Hc) as (Hc' & Hd' & Hn' & Hs').
  split; [done|]. split; [congruence|]. split.
  - intros p Hp. by rewrite Hn', Hn.
  - intros p Hp. by apply Hs', Hs.
Qed.

(** After [globals] the configuration read is the one the command started
    with. *)
Lemma touches_globals {B} g S (k : Config → Cmd B) :
  touches_only g S (k g) → touches_only g S (bind globals k).
Proof. intros Hk w Hg. unfold bind, globals. rewrite Hg. by apply Hk. Qed.

Lemma touches_range {A} g S (l : list A) (body : A → Cmd unit) :
  (∀ x, x ∈ l → touches_only g S (body x)) → touches_only g S (range l body).
Proof.
  induction l as [|x l IH]; intros Hbody; simpl.
  - apply touches_ret.
  - apply touches_bind; [apply Hbody; by left|].
    intros _. apply IH. intros y Hy. apply Hbody. by right.
Qed.

Lemma touches_getExtensionPath g S name : touches_only g S (getExtensionPath name).
Proof. intros w Hg. by rewrite getExtensionPath_eq. Qed.

Lemma touches_getCustomAppPath g S name : touches_only g S (getCustomAppPath name).
Proof. intros w Hg. by rewrite getCustomAppPath_eq. Qed.

Lemma ends_getExtensionPath E name : E Normal → ends_within E (getExtensionPath name).
Proof. intros HE w. by rewrite getExtensionPath_eq. Qed.

Lemma ends_getCustomAppPath E name : E Normal → ends_within E (getCustomAppPath name).
Proof. intros HE w. by rewrite getCustomAppPath_eq. Qed.

End ObserveFacts.

(** ** The extension injector, further *)

Section ExtensionFacts.
Context `{P : Platform}.
Import GoStrings Observe.

Ltac ends_step :=
  first
    [ apply ends_ret; solve [auto]
    | apply ends_quiet; solve [auto]
    | apply ends_emit; solve [auto]
    | apply ends_panic; solve [auto]
    | apply ends_os_WriteFile; solve [auto]
    | apply ends_getExtensionPath; solve [auto]
    | apply ends_getCustomAppPath; solve [auto]
    | progress cbv zeta
    | apply ends_bind; [|intros]
    | match goal with
      | |- ends_within _ (if ?b then _ else _) => destruct b
      | |- ends_within _ (match ?x with _ => _ end) => destruct x
      end ].

Ltac touches_step :=
  first
    [ apply touches_ret
    | apply touches_quiet
    | apply touches_emit
    | apply touches_panic
    | apply touches_getExtensionPath
    | apply touches_getCustomAppPath
    | apply touches_os_WriteFile; solve [eauto]
    | progress cbv zeta
    | apply touches_globals
    | apply touches_bind; [|intros]
    | match goal with
      | |- touches_only _ _ (if ?b then _ else _) => destruct b
      | |- touches_only _ _ (match ?x with _ => _ end) => destruct x
      end ].

(** The copy of one extension, case by case. *)
Lemma pushExtensions_copy_eq (dest extName extPath : string) (w : World) :
  pushExtensions_copy dest extName extPath w
  = match read_file (fs w) extPath with
    | None => Ok () (logged w [Print PError "cannot read file"])
    | Some content =>
        let target := filepath_Join [dest; filepath_Base extPath] in
        if can_write (fs w) target then
          if HasSuffix extName ".mjs"
          then ModifyFile (filepath_Join [dest; extName]) remap
                 (written target content w)
          else Ok () (written target content w)
        else Ok () (logged w [Write target content (Some "cannot write file");
                              Print PError "cannot write file"])
    end.
Proof.
  unfold pushExtensions_copy, CopyFile, bind, os_ReadFile, written,
    os_WriteFile, PrintError, emit, ret, logged.
  destruct (read_file (fs w) extPath) as [content|]; simpl; [|done].
  destruct (can_write _ _); simpl; [|by rewrite <- app_assoc].
  by destruct (HasSuffix extName ".mjs").
Qed.

Lemma pushExtensions_item_resolved (w : World) (v src : string) :
  resolves_to w v src →
  pushExtensions_item (xpui (cfg w)) v w
  = pushExtensions_copy (xpui (cfg w)) (extName_of v) src w.
Proof.
  unfold pushExtensions_item, extName_of.
  intros [[-> ->]|[-> Hres]]; [done|].
  by rewrite (bind_Ok _ _ _ _ _ Hres).
Qed.

Lemma pushExtensions_step (v : string) (rest : list string) (w w' : World) :
  pushExtensions_item (xpui (cfg w)) v w = Ok () w' →
  cfg w' = cfg w →
  pushExtensions (v :: rest) w = pushExtensions rest w'.
Proof.
  intros Hitem Hcfg. rewrite pushExtensions_cons.
  fold (xpui (cfg w)). rewrite (bind_Ok _ _ _ _ _ Hitem).
  unfold pushExtensions, bind, globals. by rewrite Hcfg.
Qed.

Lemma cfg_written_eq path data w : cfg (written path data w) = cfg w.
Proof. unfold written, os_WriteFile. by destruct (can_write _ _). Qed.

(** X6. An extension whose copy fails is reported and skipped: when its
    source cannot be read, or when the destination cannot be written, an
    error is logged for this item, no file is changed, no remap is
    attempted, and the loop goes on with the next extension. *)
Theorem pushExtensions_copy_failure_continues
    (w : World) (v src : string) (rest : list string) :
  resolves_to w v src →
  let target := filepath_Join [xpui (cfg w); filepath_Base src] in
  (read_file (fs w) src = None →
     ∃ msg, pushExtensions (v :: rest) w
            = pushExtensions rest (logged w [Print PError msg]))
  ∧ (∀ content,
       read_file (fs w) src = Some content →
       can_write (fs w) target = false →
       ∃ msg, pushExtensions (v :: rest) w
              = pushExtensions rest
                  (logged w [Write target content (Some msg); Print PError msg])).
Proof.
  intros Hres target.
  pose proof (pushExtensions_item_resolved w v src Hres) as Hitem.
  rewrite pushExtensions_copy_eq in Hitem. split.
  - intros Hread. rewrite Hread in Hitem. eexists.
    by apply (pushExtensions_step _ _ _ _ Hitem).
  - intros content Hread Hwrite. rewrite Hread in Hitem. cbv zeta in Hitem.
    fold target in Hitem. rewrite Hwrite in Hitem. eexists.
    by apply (pushExtensions_step _ _ _ _ Hitem).
Qed.

(** X7. An extension that is not a module script is copied as it is: when
    its source can be read and the destination written, the file of the
    same base name in the [xpui] folder gets the content of the source,
    nothing else is logged or changed, and the loop goes on with the next
    extension. *)
Theorem pushExtensions_copies_verbatim
    (w : World) (v src content : string) (rest : list string) :
  resolves_to w v src →
  HasSuffix (extName_of v) ".mjs" = false →
  read_file (fs w) src = Some content →
  let target := filepath_Join [xpui (cfg w); filepath_Base src] in
  can_write (fs w) target = true →
  pushExtensions (v :: rest) w = pushExtensions rest (written target content w)
  ∧ read_file (fs (written target content w)) target = Some content
  ∧ log (written target content w) = log w ++ [Write target content None].
Proof.
  intros Hres Hmjs Hread target Hwrite.
  pose proof (pushExtensions_item_resolved w v src Hres) as Hitem.
  rewrite pushExtensions_copy_eq, Hread in Hitem. cbv zeta in Hitem.
  fold target in Hitem. rewrite Hwrite, Hmjs in Hitem.
  split; [|split].
  - apply (pushExtensions_step _ _ _ _ Hitem), cfg_written_eq.
  - by apply read_written.
  - rewrite log_written. unfold write_error. by rewrite Hwrite.
Qed.


Lemma ends_pushExtensions_item E dest v :
  E Normal → E Panics → ends_within E (pushExtensions_item dest v).
Proof.
  intros HN HP.
  unfold pushExtensions_item, pushExtensions_copy, CopyFile, ModifyFile,
    PrintError, os_ReadFile.
  repeat ends_step.
Qed.

Lemma ends_pushExtensions_item_plain E dest v :
  E Normal → HasSuffix (extName_of v) ".mjs" = false →
  ends_within E (pushExtensions_item dest v).
Proof.
  intros HN Hmjs. unfold pushExtensions_item, extName_of in *.
  destruct (filepath_IsAbs v).
  - unfold pushExtensions_copy. rewrite Hmjs.
    unfold CopyFile, PrintError, os_ReadFile. repeat ends_step.
  - unfold pushExtensions_copy. rewrite Hmjs.
    unfold CopyFile, PrintError, os_ReadFile. repeat ends_step.
Qed.

(** X9. [pushExtensions] never ends the process, whatever the list and the
    files; and when no extension of the list is a module script it cannot
    panic either: it returns normally. *)
Theorem pushExtensions_never_exits (l : list string) (w : World) :
  (∀ code w', pushExtensions l w ≠ Exit code w')
  ∧ (Forall (λ v, HasSuffix (extName_of v) ".mjs" = false) l →
     ∃ w', pushExtensions l w = Ok () w').
Proof.
  split.
  - assert (H : ends_within (λ e, e ≠ Exits) (pushExtensions l)).
    { unfold pushExtensions, globals. apply ends_bind; [by apply ends_quiet|].
      intros g. apply ends_range; [done|]. intros v _.
      by apply ends_pushExtensions_item. }
    intros code w' Heq. specialize (H w). by rewrite Heq in H.
  - intros Hplain.
    assert (H : ends_within (λ e, e = Normal) (pushExtensions l)).
    { unfold pushExtensions, globals. apply ends_bind; [by apply ends_quiet|].
      intros g. apply ends_range; [done|]. intros v Hv.
      apply ends_pushExtensions_item_plain; [done|].
      rewrite Forall_forall in Hplain. by apply Hplain. }
    specialize (H w).
    destruct (pushExtensions l w) as [[] w'|code w'|w']; [by eauto|done..].
Qed.

Lemma touches_pushExtensions g l : touches_only g (in_xpui g) (pushExtensions l).
Proof.
  unfold pushExtensions. apply touches_globals. fold (xpui g).
  apply touches_range. intros v _.
  assert (HS : ∀ name, in_xpui g (filepath_Join [xpui g; name])) by (by eexists).
  unfold pushExtensions_item, pushExtensions_copy, CopyFile, ModifyFile,
    PrintError, os_ReadFile.
  repeat touches_step.
Qed.

(** X10. [pushExtensions] changes nothing but files directly inside the
    [xpui] folder of the destination: every other path keeps what it had,
    no path that existed is removed, and the configuration is left as it
    was. *)
Theorem pushExtensions_touches_only_xpui (l : list string) (w : World) (p : string) :
  (∀ name, p ≠ filepath_Join [xpui (cfg w); name]) →
  nodes (fs (world_of (pushExtensions l w))) !! p = nodes (fs w) !! p
  ∧ cfg (world_of (pushExtensions l w)) = cfg w
  ∧ (∀ p', stat (fs w) p' = true →
           stat (fs (world_of (pushExtensions l w))) p' = true).
Proof.
  intros Hp.
  destruct (touches_pushExtensions (cfg w) l w eq_refl) as (Hc & _ & Hn & Hs).
  split; [|done]. apply Hn. intros [name ->]. by apply (Hp name).
Qed.

End ExtensionFacts.

(** ** The custom-app bundler, further *)

Section AppFacts.
Context `{P : Platform}.
Import GoStrings Trace Observe.

Ltac ends_step :=
  first
    [ apply ends_ret; solve [auto]
    | apply ends_quiet; solve [auto]
    | apply ends_emit; solve [auto]
    | apply ends_os_WriteFile; solve [auto]
    | apply ends_getCustomAppPath; solve [auto]
    | progress cbv zeta
    | apply ends_bind; [|intros]
    | match goal with
      | |- ends_within _ (if ?b then _ else _) => destruct b
      | |- ends_within _ (match ?x with _ => _ end) => destruct x
      end ].

Ltac touches_step :=
  first
    [ apply touches_ret
    | apply touches_quiet
    | apply touches_emit
    | apply touches_getCustomAppPath
    | apply touches_os_WriteFile; solve [eauto]
    | progress cbv zeta
    | apply touches_globals
    | apply touches_bind; [|intros]
    | match goal with
      | |- touches_only _ _ (if ?b then _ else _) => destruct b
      | |- touches_only _ _ (match ?x with _ => _ end) => destruct x
      end ].

Lemma ends_pushApps_subfiles E dir files :
  E Normal → ∀ acc, ends_within E (pushApps_subfiles dir files acc).
Proof.
  intros HN. induction files as [|subfile files IH]; intros acc; simpl.
  - by apply ends_ret.
  - unfold os_ReadFile. repeat ends_step; apply IH.
Qed.

Lemma touches_pushApps_subfiles g S dir files :
  ∀ acc, touches_only g S (pushApps_subfiles dir files acc).
Proof.
  induction files as [|subfile files IH]; intros acc; simpl.
  - apply touches_ret.
  - unfold os_ReadFile. repeat touches_step; apply IH.
Qed.

Lemma ends_pushApps l : ends_within (λ e, e = Normal) (pushApps l).
Proof.
  unfold pushApps. apply ends_range; [done|]. intros app _.
  unfold pushApps_item, PrintError, globals, os_ReadFile.
  repeat first [apply ends_pushApps_subfiles; solve [auto] | ends_step].
Qed.

Lemma touches_pushApps g l : touches_only g (artifact_of l g) (pushApps l).
Proof.
  unfold pushApps. apply touches_range. intros app Happ.
  assert (HS : ∀ ext, ext ∈ [".json"; ".js"; ".css"] →
                      artifact_of l g (filepath_Join
                        [appDestPath g; "xpui"; ("spicetify-routes-" +:+ app) +:+ ext])).
  { intros ext Hext. by exists app, ext. }
  unfold pushApps_item, PrintError, os_ReadFile.
  repeat first
    [ apply touches_pushApps_subfiles
    | apply touches_os_WriteFile; apply HS; set_solver
    | touches_step ].
Qed.

(** X11. [pushApps] always returns normally: whatever the list of apps and
    the state of the files, no custom app can end or panic the run; all it
    logs is error messages and file writes, and the configuration is left
    as it was. *)
Theorem pushApps_always_returns (l : list string) (w : World) :
  ∃ w' evs, pushApps l w = Ok () w'
            ∧ cfg w' = cfg w
            ∧ log w' = log w ++ evs
            ∧ Forall (λ e, is_error_or_write e = true) evs.
Proof.
  pose proof (ends_pushApps l w) as Hend.
  destruct (touches_pushApps (cfg w) l w eq_refl) as (Hcfg & _).
  destruct (shape_pushApps (λ e, is_error_or_write e = true)) with (l := l) (w := w)
    as (evs & Hlog & Hevs); [done..|].
  destruct (pushApps l w) as [[] w'|code w'|w']; [|done..].
  by exists w', evs.
Qed.

(** X12. [pushApps] changes nothing but the .json, .js and .css artifacts
    of the listed apps: every other path keeps what it had, and no path
    that existed is removed. *)
Theorem pushApps_touches_only_artifacts (l : list string) (w : World) (p : string) :
  (∀ app ext, app ∈ l → ext ∈ [".json"; ".js"; ".css"] →
              p ≠ artifact (cfg w) app ext) →
  nodes (fs (world_of (pushApps l w))) !! p = nodes (fs w) !! p
  ∧ (∀ p', stat (fs w) p' = true → stat (fs (world_of (pushApps l w))) p' = true).
Proof.
  intros Hp.
  destruct (touches_pushApps (cfg w) l w eq_refl) as (_ & _ & Hn & Hs).
  split; [|done]. apply Hn. intros (app & ext & Happ & Hext & ->).
  by apply (Hp app ext).
Qed.

Lemma read_written_ne path data w path' :
  path ≠ path' →
  read_file (fs (written path data w)) path' = read_file (fs w) path'.
Proof.
  intros Hne. unfold written, os_WriteFile.
  destruct (can_write _ _); [|done]. simpl.
  unfold read_file. simpl. by rewrite lookup_insert_ne.
Qed.

(** X13. For a custom app that is found and has a readable index.js, the
    .css artifact gets the content of the app's style.css, and the empty
    content when style.css cannot be read (provided style.css is not itself
    one of the app's .json and .js artifacts). *)
Theorem pushApps_stylesheet_artifact (w : World) (app dir js : string) :
  getCustomAppPath app w = Ok (dir, None) w →
  read_file (fs w) (filepath_Join [dir; "index.js"]) = Some js →
  let cssFile := filepath_Join [dir; "style.css"] in
  artifact (cfg w) app ".json" ≠ cssFile →
  artifact (cfg w) app ".js" ≠ cssFile →
  ∃ w' d1 d2 e1 e2 e3,
    pushApps_item app w = Ok () w'
    ∧ log w' = log w ++
        [Write (artifact (cfg w) app ".json") d1 e1;
         Write (artifact (cfg w) app ".js") d2 e2;
         Write (artifact (cfg w) app ".css")
               (default EmptyString (read_file (fs w) cssFile)) e3].
Proof.
  intros Hdir Hjs cssFile Hne1 Hne2.
  pose proof (log_bundled app dir js w) as Hlog. cbv zeta in Hlog.
  rewrite !read_written_ne in Hlog by done.
  exists (bundled app dir js w). do 5 eexists.
  split; [by apply pushApps_item_bundled|exact Hlog].
Qed.

(** X14. For a custom app that is found and has a readable index.js, a
    manifest.json that can be read is written to the .json artifact as it
    is, whether it can be decoded or not. *)
Theorem pushApps_manifest_verbatim (w : World) (app dir js manifest : string) :
  getCustomAppPath app w = Ok (dir, None) w →
  read_file (fs w) (filepath_Join [dir; "index.js"]) = Some js →
  read_file (fs w) (filepath_Join [dir; "manifest.json"]) = Some manifest →
  ∃ w' d2 d3 e2 e3,
    pushApps_item app w = Ok () w'
    ∧ log w' = log w ++
        [Write (artifact (cfg w) app ".json") manifest
               (write_error (fs w) (artifact (cfg w) app ".json"));
         Write (artifact (cfg w) app ".js") d2 e2;
         Write (artifact (cfg w) app ".css") d3 e3]
    ∧ (can_write (fs w) (artifact (cfg w) app ".json") = true →
       read_file (fs (written (artifact (cfg w) app ".json") manifest w))
                 (artifact (cfg w) app ".json") = Some manifest).
Proof.
  intros Hdir Hjs Hm.
  pose proof (log_bundled app dir js w) as Hlog. cbv zeta in Hlog.
  unfold manifest_content in Hlog. rewrite Hm in Hlog. simpl default in Hlog.
  exists (bundled app dir js w). do 4 eexists.
  split; [by apply pushApps_item_bundled|]. split; [exact Hlog|].
  apply read_written.
Qed.

(** *** The shared dependency folder *)

(** X15. When neither the user folder nor the bundled folder of extensions
    has a [node_modules] entry, [nodeModuleSymlink] does nothing at all:
    no message, no call, the world is as it was. *)
Theorem nodeModuleSymlink_absent_is_silent (w : World) :
  stat (fs w) (filepath_Join [userExtensionsFolder (cfg w); "node_modules"]) = false →
  stat (fs w) (filepath_Join [GetExecutableDir; "Extensions"; "node_modules"]) = false →
  nodeModuleSymlink w = Ok () w.
Proof.
  intros Huser Hbundled. unfold nodeModuleSymlink, bind, globals.
  rewrite getExtensionPath_eq. simpl. by rewrite Huser, Hbundled.
Qed.

(** X16. When a [node_modules] entry is found at [src], the junction is
    made from [src] to [node_modules] in the [xpui] folder of the
    destination; a junction that fails is reported as an error and the
    run goes on, one that succeeds is acknowledged. *)
Theorem nodeModuleSymlink_links_resolved_folder (w : World) (src : string) :
  getExtensionPath "node_modules" w = Ok (src, None) w →
  let c := utils_CreateJunction src
             (filepath_Join [appDestPath (cfg w); "xpui"; "node_modules"]) in
  let r := collaborator c (cfg w) (fs w) in
  let w1 := mkWorld r.1 (cfg w)
              (log w ++ [Print PBold "Found node_modules folder. Creating node_modules symlink:";
                         Call c r.2]) in
  nodeModuleSymlink w
  = match r.2 with
    | Returned None => Ok () (logged w1 [Print PGreen "OK"])
    | Returned (Some _) =>
        Ok () (logged w1 [Print PError "Cannot create node_modules symlink"])
    | Died code => Exit code w1
    end.
Proof.
  intros Hres c r w1. unfold nodeModuleSymlink. unfold bind at 1, globals.
  rewrite (bind_Ok _ _ _ _ _ Hres). cbn [fst snd].
  unfold bind, PrintBold, PrintGreen, PrintError, emit, invoke, logged.
  simpl. subst w1 r c. 
  destruct (collaborator _ _ _) as [f [[e|]|code]]; simpl;
    by rewrite <- ?app_assoc.
Qed.

End AppFacts.

(** ** The other entry points *)

Section EntryPointFacts.
Context `{P : Platform}.
Import GoStrings Trace Observe.

Lemma appends_checkStates (Q : event → Prop) :
  (∀ p msg, Q (Print p msg)) →
  (∀ prompt d o a, Q (Ask prompt d o a)) →
  appends Q checkStates.
Proof.
  intros Qp Qa w.
  destruct (checkStates_shape w) as (evs & Hgate & Hevs & _).
  exists evs. split.
  - by destruct Hgate as [-> | ->].
  - eapply Forall_impl; [exact Hevs|]. by intros [| | |].
Qed.

Lemma appends_InitSetting (Q : event → Prop) : appends Q InitSetting.
Proof.
  intros w. exists []. rewrite app_nil_r. unfold InitSetting.
  by destruct (InitSetting_globals _ _).
Qed.

(** X17. [UpdateTheme] with a blank theme: once the gate is passed and the
    settings are loaded, an empty theme folder makes it print the warning
    that nothing is updated and end with exit status 1, before any
    stylesheet or asset is transferred. *)
Theorem UpdateTheme_blank_theme (w : World) (gs : list event) (g : Config) :
  checkStates w = Ok () (logged w gs) →
  InitSetting_globals (cfg w) (fs w) = inl g →
  themeFolder g = EmptyString →
  UpdateTheme w
  = Exit 1 (mkWorld (fs w) g (log w ++ gs ++ [Print PWarning msg_blank_theme])).
Proof.
  intros Hgate Hinit Htheme. unfold UpdateTheme.
  rewrite (bind_Ok _ _ _ _ _ Hgate).
  unfold InitSetting at 1. unfold bind at 1. cbn [fs cfg log logged].
  rewrite Hinit. unfold bind at 1, globals. cbn [cfg].
  rewrite Htheme. simpl.
  unfold bind, PrintWarning, emit, os_Exit. simpl. by rewrite <- app_assoc.
Qed.

(** X18. [UpdateTheme] only transfers the theme: whatever the world, it
    logs nothing but messages, the prompt of the gate and the calls for the
    user.css and the custom assets; it never removes or copies the asset
    tree, never writes a file itself and never panics. *)
Theorem UpdateTheme_only_transfers_theme (w : World) :
  (∃ evs, log (world_of (UpdateTheme w)) = log w ++ evs
          ∧ Forall (λ e, is_print e || is_ask e || is_theme_call e = true) evs)
  ∧ (∀ w', UpdateTheme w ≠ Panic w').
Proof.
  split.
  - assert (H : appends (λ e, is_print e || is_ask e || is_theme_call e = true)
                  UpdateTheme).
    { unfold UpdateTheme. apply appends_bind; [by apply appends_checkStates|].
      intros _. apply appends_bind; [apply appends_InitSetting|]. intros _.
      unfold updateCSS, updateAssets, PrintWarning, PrintSuccess, globals.
      repeat first
        [ apply appends_ret
        | apply appends_os_Exit
        | apply appends_emit; reflexivity
        | apply appends_invoke; intros; reflexivity
        | apply appends_quiet
        | apply appends_bind; [|intros]
        | match goal with
          | |- appends _ (if ?b then _ else _) => destruct b
          end ]. }
    apply H.
  - assert (H : ends_within (λ e, e ≠ Panics) UpdateTheme).
    { unfold UpdateTheme.
      apply ends_bind.
      { intros w0. destruct (checkStates_shape w0) as (evs & [-> | ->] & _); done. }
      intros _. apply ends_bind.
      { intros w0. unfold InitSetting. by destruct (InitSetting_globals _ _). }
      intros _.
      assert (Hinvoke : ∀ c, ends_within (λ e, e ≠ Panics) (invoke c)).
      { intros c w0. unfold invoke. by destruct (collaborator _ _ _) as [? []]. }
      unfold updateCSS, updateAssets, PrintWarning, PrintSuccess, globals.
      repeat first
        [ apply ends_ret; done
        | apply ends_quiet; done
        | apply ends_emit; done
        | apply Hinvoke
        | (intros w0; done)
        | apply ends_bind; [|intros]
        | match goal with
          | |- ends_within _ (if ?b then _ else _) => destruct b
          end ]. }
    intros w' Heq. specialize (H w). by rewrite Heq in H.
Qed.

Section WithTime.
Variable PrependTime : string → string.

(** X19. [UpdateAllExtension] with no extension configured: once the gate
    is passed, it prints the error that there is no extension to update
    and returns normally; no file is touched. *)
Theorem UpdateAllExtension_without_extensions (w w1 : World) :
  checkStates w = Ok () w1 →
  extensions (cfg w) = [] →
  UpdateAllExtension PrependTime w
  = Ok () (logged w1 [Print PError "No extension to update."])
  ∧ fs w1 = fs w.
Proof.
  intros Hgate Hnone.
  destruct (checkStates_shape w) as (evs & [Hok|Hexit] & _); [|congruence].
  assert (w1 = logged w evs) as -> by congruence.
  unfold UpdateAllExtension. rewrite (bind_Ok _ _ _ _ _ Hgate).
  unfold bind, globals. cbn [cfg logged]. by rewrite Hnone.
Qed.

(** X20. [UpdateAllExtension] only pushes the extensions: whatever the
    world, it calls no collaborator (no asset copy, no stylesheet transfer,
    no [node_modules] junction), it leaves the configuration as it was, and
    outside the [xpui] folder of the destination it changes no path. *)
Theorem UpdateAllExtension_only_pushes (w : World) (p : string) :
  (∃ evs, log (world_of (UpdateAllExtension PrependTime w)) = log w ++ evs
          ∧ Forall (λ e, is_call e = false) evs)
  ∧ cfg (world_of (UpdateAllExtension PrependTime w)) = cfg w
  ∧ ((∀ name, p ≠ filepath_Join [xpui (cfg w); name]) →
     nodes (fs (world_of (UpdateAllExtension PrependTime w))) !! p
     = nodes (fs w) !! p).
Proof.
  assert (Hlog : appends (λ e, is_call e = false) (UpdateAllExtension PrependTime)).
  { unfold UpdateAllExtension.
    apply appends_bind; [by apply appends_checkStates|]. intros _.
    apply appends_bind; [apply appends_quiet|]. intros g.
    cbv zeta. destruct (decide _).
    - apply appends_bind; [by apply shape_pushExtensions|]. intros _.
      by apply appends_emit.
    - by apply appends_emit. }
  assert (Htouch : touches_only (cfg w) (in_xpui (cfg w))
                     (UpdateAllExtension PrependTime)).
  { unfold UpdateAllExtension. apply touches_bind.
    { intros w0 Hg. destruct (checkStates_shape w0) as (evs & [-> | ->] & _); done. }
    intros _. apply touches_globals. cbv zeta. destruct (decide _).
    - apply touches_bind; [apply touches_pushExtensions|]. intros _.
      apply touches_emit.
    - apply touches_emit. }
  split; [apply Hlog|].
  destruct (Htouch w eq_refl) as (Hc & _ & Hn & _).
  split; [done|]. intros Hp. apply Hn. intros [name ->]. by apply (Hp name).
Qed.

End WithTime.

End EntryPointFacts.

(** ** Runs that reach the end *)

Section CompletionFacts.
Context `{P : Platform}.
Import GoStrings Trace Observe Completion.

Lemma completes_bind {A B} Q T (m : Cmd A) (k : A → Cmd B) (w : World) :
  appends Q m →
  (∀ a w', completes Q T (k a) w') →
  completes Q T (bind m k) w.
Proof.
  intros Hm Hk. destruct (Hm w) as (evs & Hlog & Hall).
  unfold completes, bind.
  destruct (m w) as [a w1|code w1|w1]; simpl in Hlog; [|by eauto..].
  destruct (Hk a w1) as (evs' & Hall' & Hend).
  exists (evs ++ evs'). split; [by apply Forall_app|].
  destruct (k a w1) as [b w2|code w2|w2]; rewrite Hend, Hlog;
    by rewrite <- ?app_assoc.
Qed.

Ltac quiet_step :=
  first
    [ progress cbv zeta
    | apply appends_ret
    | apply appends_os_Exit
    | apply appends_panic
    | apply appends_emit; reflexivity
    | apply appends_os_WriteFile; intros; reflexivity
    | apply appends_invoke; intros; reflexivity
    | apply appends_quiet
    | apply shape_pushExtensions; intros; reflexivity
    | apply shape_pushApps; intros; reflexivity
    | apply shape_getExtensionPath
    | apply shape_CopyFile; intros; reflexivity
    | apply appends_bind; [|intros]
    | match goal with
      | |- appends _ (if ?b then _ else _) => destruct b
      | |- appends _ (match ?x with _ => _ end) => destruct x
      end ].

Lemma quiet_checkStates : appends not_done checkStates.
Proof.
  unfold checkStates, ReadAnswer, PrintError, PrintWarning, PrintInfo,
    globals, backupstatus_Get_now, spotifystatus_Get_now.
  repeat quiet_step.
Qed.

Lemma quiet_Apply_assets : appends not_done Apply_assets.
Proof.
  unfold Apply_assets, fatal_if, Fatal, PrintBold, PrintGreen, globals,
    spotifystatus_Get_now.
  repeat quiet_step.
Qed.

Lemma quiet_nodeModuleSymlink : appends not_done nodeModuleSymlink.
Proof.
  unfold nodeModuleSymlink, PrintBold, PrintError, PrintGreen, globals.
  repeat quiet_step.
Qed.

Lemma completes_Apply_inject (w : World) :
  completes not_done (closing (cfg w)) Apply_inject w.
Proof.
  unfold Apply_inject. unfold bind at 1. unfold globals at 1. cbv beta iota.
  repeat (apply completes_bind;
          [solve [unfold updateCSS, updateAssets, PrintBold, PrintGreen, globals;
                  repeat first [apply quiet_nodeModuleSymlink | quiet_step]]
          |intros _ ?w']).
  exists []. split; [constructor|].
  unfold closing, bind, PrintSuccess, PrintInfo, emit, ret.
  destruct (isAppX (cfg w)); cbv beta iota; cbn [log app];
    rewrite <- ?app_assoc; reflexivity.
Qed.

(** X25. The success message tells that the run is complete: a run of
    [Apply] that returns has logged [Spotify is spiced up!] last, followed
    only by the Windows Store notice when [isAppX] is set in the loaded
    configuration, and no success message before it; a run that exits or
    panics has logged no success message at all. *)
Theorem Apply_success_message (w : World) :
  ∃ evs,
    Forall (λ e, is_done e = false) evs
    ∧ match Apply w with
      | Ok _ w' =>
          ∃ g, InitSetting_globals (cfg w) (fs w) = inl g
               ∧ log w' = log w ++ evs ++ closing g
      | Exit _ w' | Panic w' => log w' = log w ++ evs
      end.
Proof.
  destruct (checkStates_shape w) as (gs & Hgate & _).
  assert (Hgs : Forall not_done gs).
  { destruct (quiet_checkStates w) as (evs & Hlog & Hall).
    assert (log w ++ gs = log w ++ evs) as ->%app_inv_head; [|done].
    rewrite <- Hlog. by destruct Hgate as [-> | ->]. }
  unfold Apply. destruct Hgate as [Hgate|Hgate].
  2: { rewrite (bind_Exit _ _ _ _ _ Hgate). by exists gs. }
  rewrite (bind_Ok _ _ _ _ _ Hgate).
  assert (Hinit : InitSetting (logged w gs)
                  = match InitSetting_globals (cfg w) (fs w) with
                    | inl g => Ok () (mkWorld (fs w) g (log w ++ gs))
                    | inr code => Exit code (logged w gs)
                    end) by reflexivity.
  destruct (InitSetting_globals (cfg w) (fs w)) as [g|code].
  2: { rewrite (bind_Exit _ _ _ _ _ Hinit). by exists gs. }
  rewrite (bind_Ok _ _ _ _ _ Hinit).
  set (w2 := mkWorld (fs w) g (log w ++ gs)).
  destruct (Apply_assets_shape w2) as (_ & _ & Hcfg & Hpanic & _).
  destruct (quiet_Apply_assets w2) as (evs2 & Hlog2 & Hall2).
  destruct (Apply_assets w2) as [[] w3|code w3|w3] eqn:Ha.
  - rewrite (bind_Ok _ _ _ _ _ Ha).
    cbn [world_of] in Hlog2, Hcfg.
    destruct (completes_Apply_inject w3) as (evs3 & Hall3 & Hend).
    exists (gs ++ evs2 ++ evs3). split.
    { apply Forall_app. split; [exact Hgs|].
      apply Forall_app. split; [exact Hall2|exact Hall3]. }
    rewrite Hcfg in Hend. change (cfg w2) with g in Hend.
    change (log w2) with (log w ++ gs) in Hlog2.
    destruct (Apply_inject w3) as [[] w4|code w4|w4].
    + exists g. split; [reflexivity|].
      rewrite Hend, Hlog2, <- !app_assoc. reflexivity.
    + rewrite Hend, Hlog2, <- !app_assoc. reflexivity.
    + rewrite Hend, Hlog2, <- !app_assoc. reflexivity.
  - rewrite (bind_Exit _ _ _ _ _ Ha).
    cbn [world_of] in Hlog2. change (log w2) with (log w ++ gs) in Hlog2.
    exists (gs ++ evs2). split.
    { apply Forall_app. split; [exact Hgs|exact Hall2]. }
    rewrite Hlog2, <- !app_assoc. reflexivity.
  - by destruct (Hpanic w3).
Qed.

End CompletionFacts.

(** ** The directive pattern and the remap, further *)

Module DirectiveFacts.
Import GoStrings GoStringsFacts Directive DirectiveText Remap RemapFacts.

Lemma all_chars_app f (a b : string) :
  all_chars f (a +:+ b) = all_chars f a && all_chars f b.
Proof.
  induction a as [|c a IH]; [done|].
  rewrite append_cons. simpl. by rewrite IH, andb_assoc.
Qed.

Lemma all_chars_drop f n : ∀ s,
  all_chars f s = true → all_chars f (drop_bytes n s) = true.
Proof.
  induction n as [|n IH]; intros [|c s]; simpl; try done.
  intros [_ H]%andb_true_iff. by apply IH.
Qed.

Lemma cut_prefix_Some (p s rest : string) :
  cut_prefix p s = Some rest → s = p +:+ rest.
Proof.
  unfold cut_prefix, HasPrefix. revert s.
  induction p as [|c p IH]; intros s.
  - destruct s; simpl; by intros [= <-].
  - destruct s as [|d s]; simpl; [done|].
    destruct (ascii_dec c d) as [<-|]; [|done].
    intros H. rewrite append_cons. f_equal. by apply IH.
Qed.

Lemma dot_plus_lazy_Some {R} (k : string → option R) (s g : string) (r : R) :
  dot_plus_lazy k s = Some (g, r) →
  g ≠ EmptyString ∧ all_chars is_dot g = true
  ∧ ∃ s', s = g +:+ s' ∧ k s' = Some r.
Proof.
  revert g. induction s as [|c s IH]; intros g; simpl; [done|].
  destruct (is_dot c) eqn:Hc; [|done].
  destruct (k s) as [r'|] eqn:Hk.
  - intros [= <- <-]. split; [done|]. split; [simpl; by rewrite Hc|].
    by exists s.
  - destruct (dot_plus_lazy k s) as [[g' r']|]; [|done].
    intros [= <- <-]. destruct (IH g' eq_refl) as (_ & Hg & s' & -> & Hs').
    split; [done|]. split; [simpl; by rewrite Hc, Hg|].
    exists s'. by rewrite append_cons.
Qed.

Lemma spaces_star_Some {R} (k : string → option R) (s : string) (r : R) :
  spaces_star k s = Some r →
  ∃ ws s', s = ws +:+ s' ∧ all_chars is_space ws = true ∧ k s' = Some r.
Proof.
  induction s as [|c s IH]; simpl.
  - intros Hk. by exists EmptyString, EmptyString.
  - destruct (is_space c) eqn:Hc.
    + destruct (spaces_star k s) as [r'|].
      * intros [= <-]. destruct (IH eq_refl) as (ws & s' & -> & Hws & Hk).
        exists (String c ws), s'. rewrite append_cons. simpl.
        by rewrite Hc, Hws.
      * intros Hk. by exists EmptyString, (String c s).
    + intros Hk. by exists EmptyString, (String c s).
Qed.

Lemma match_here_Some (s a b : string) :
  match_here s = Some (a, b) →
  ∃ ws post,
    s = directive ws a b +:+ post
    ∧ all_chars is_space ws = true
    ∧ a ≠ EmptyString ∧ b ≠ EmptyString
    ∧ all_chars is_dot a = true ∧ all_chars is_dot b = true.
Proof.
  unfold match_here.
  destruct (cut_prefix "//" s) as [s1|] eqn:H1; [|done]. simpl.
  destruct (spaces_star _ s1) as [[a' [b' post]]|] eqn:H2; [|done]. simpl.
  intros [= -> ->].
  apply cut_prefix_Some in H1 as ->.
  apply spaces_star_Some in H2 as (ws & s2 & -> & Hws & H2).
  destruct (cut_prefix "spicetify_map{" s2) as [s3|] eqn:H3; [|done].
  simpl in H2. apply cut_prefix_Some in H3 as ->.
  apply dot_plus_lazy_Some in H2 as (Ha & Ha' & s4 & -> & H4).
  destruct (cut_prefix "}{" s4) as [s5|] eqn:H5; [|done].
  simpl in H4. apply cut_prefix_Some in H5 as ->.
  apply dot_plus_lazy_Some in H4 as (Hb & Hb' & s6 & -> & H6).
  apply cut_prefix_Some in H6 as ->.
  exists ws, post. unfold directive.
  split; [by rewrite !append_assoc|done].
Qed.

Lemma find_Some (s a b : string) :
  find s = Some (a, b) →
  ∃ pre ws post,
    s = pre +:+ directive ws a b +:+ post
    ∧ all_chars is_space ws = true
    ∧ a ≠ EmptyString ∧ b ≠ EmptyString
    ∧ all_chars is_dot a = true ∧ all_chars is_dot b = true.
Proof.
  induction s as [|c s IH].
  - simpl. unfold match_here. simpl. done.
  - cbn [find]. destruct (match_here (String c s)) as [[a' b']|] eqn:Hm.
    + intros [= -> ->]. apply match_here_Some in Hm as (ws & post & Hs & H).
      exists EmptyString, ws, post. by split.
    + intros Hf. destruct (IH Hf) as (pre & ws & post & -> & H).
      exists (String c pre), ws, post. by rewrite append_cons.
Qed.

(** X21. Whenever a line matches the directive pattern, [FindSymbol]
    yields exactly two tokens, so that [mapping[0]] and [mapping[1]] are in
    range; both tokens are non-empty and without newline, and the line
    holds, after two slashes and any blanks, [spicetify_map{A}{B}]. *)
Theorem FindSymbol_yields_two_tokens (line : string) :
  FindSymbol "" line ≠ [] →
  ∃ a b pre ws post,
    FindSymbol "" line = [a; b]
    ∧ line = pre +:+ directive ws a b +:+ post
    ∧ all_chars is_space ws = true
    ∧ a ≠ EmptyString ∧ b ≠ EmptyString
    ∧ all_chars inline a = true ∧ all_chars inline b = true.
Proof.
  unfold FindSymbol.
  destruct (find line) as [[a b]|] eqn:Hf; [|done]. intros _.
  destruct (find_Some _ _ _ Hf) as (pre & ws & post & H).
  by exists a, b, pre, ws, post.
Qed.

Lemma find_eq (s : string) :
  find s = match match_here s with
           | Some m => Some m
           | None => match s with
                     | EmptyString => None
                     | String _ s' => find s'
                     end
           end.
Proof. by destruct s. Qed.

Lemma spaces_star_app {R} (k : string → option R) (ws s : string) (r : R) :
  all_chars is_space ws = true →
  spaces_star k s = Some r →
  spaces_star k (ws +:+ s) = Some r.
Proof.
  intros Hws Hk. induction ws as [|c ws IH]; [done|].
  simpl in Hws. apply andb_true_iff in Hws as [Hc Hws].
  rewrite append_cons. simpl. by rewrite Hc, (IH Hws).
Qed.

Lemma cut_prefix_plain (c0 : ascii) (p : string) (c : ascii) (s : string) :
  c ≠ c0 → cut_prefix (String c0 p) (String c s) = None.
Proof.
  intros Hc. unfold cut_prefix, HasPrefix. simpl.
  by destruct (ascii_dec c0 c) as [->|].
Qed.

Lemma plain_is_dot c : plain c = true → is_dot c = true.
Proof. unfold plain, is_dot. by intros [? _]%andb_true_iff. Qed.

Lemma plain_not_brace c : plain c = true → c ≠ "}"%char.
Proof.
  unfold plain. intros [_ H]%andb_true_iff.
  by apply negb_true_iff, bool_decide_eq_false in H.
Qed.

Lemma dot_plus_lazy_app {R} (k : string → option R) (a s : string) (r : R) :
  (∀ c s', plain c = true → k (String c s') = None) →
  a ≠ EmptyString →
  all_chars plain a = true →
  k s = Some r →
  dot_plus_lazy k (a +:+ s) = Some (a, r).
Proof.
  intros Hk Ha Hplain Hs. induction a as [|c a IH]; [done|].
  simpl in Hplain. apply andb_true_iff in Hplain as [Hc Hplain].
  rewrite append_cons. simpl. rewrite (plain_is_dot c Hc).
  destruct a as [|c' a].
  - change (EmptyString +:+ s) with s. by rewrite Hs.
  - assert (Hc' : plain c' = true).
    { simpl in Hplain. by apply andb_true_iff in Hplain as [? _]. }
    rewrite append_cons, (Hk c' _ Hc'), <- append_cons.
    by rewrite (IH ltac:(done) Hplain).
Qed.

Lemma match_here_directive (ws a b post : string) :
  all_chars is_space ws = true →
  a ≠ EmptyString → b ≠ EmptyString →
  all_chars plain a = true → all_chars plain b = true →
  match_here (directive ws a b +:+ post) = Some (a, b).
Proof.
  intros Hws Ha Hb Hpa Hpb. unfold match_here, directive.
  rewrite !append_assoc, cut_prefix_app. simpl.
  rewrite (spaces_star_app _ ws _ (a, (b, post)) Hws); [done|].
  change ("spicetify_map{" +:+ ?x) with (String "s" ("picetify_map{" +:+ x)).
  cbn [spaces_star].
  change (is_space "s") with false. cbv iota.
  change (String "s" ("picetify_map{" +:+ ?x)) with ("spicetify_map{" +:+ x).
  rewrite cut_prefix_app. simpl.
  apply dot_plus_lazy_app; [|done|done|].
  { intros c s' Hc. rewrite cut_prefix_plain; [done|by apply plain_not_brace]. }
  rewrite cut_prefix_app. simpl.
  apply dot_plus_lazy_app; [|done|done|].
  { intros c s' Hc. apply cut_prefix_plain. by apply plain_not_brace. }
  apply (cut_prefix_app "}").
Qed.

(** X22. A directive is read back as it was written: for tokens [A] and
    [B] that are non-empty and hold neither a newline nor a closing brace,
    a line that begins with two slashes, any blanks and
    [spicetify_map{A}{B}] gives exactly the tokens [A] and [B], whatever
    follows on the line. *)
Theorem FindSymbol_reads_directive (ws a b post : string) :
  all_chars is_space ws = true →
  a ≠ EmptyString → b ≠ EmptyString →
  all_chars plain a = true → all_chars plain b = true →
  FindSymbol "" (directive ws a b +:+ post) = [a; b].
Proof.
  intros Hws Ha Hb Hpa Hpb. unfold FindSymbol.
  by rewrite find_eq, match_here_directive.
Qed.

(** *** The lines of the remapped content *)

Lemma Join_Split (s : string) (c : ascii) : Join (Split s c) (str1 c) = s.
Proof.
  induction s as [|x s IH]; [done|].
  simpl. destruct (Split_nonempty s c) as (l & rest & Hs).
  rewrite Hs in *. case_bool_decide as Hx.
  - subst x. change (Join (EmptyString :: l :: rest) (str1 c))
      with (String c (Join (l :: rest) (str1 c))).
    by rewrite IH.
  - destruct rest as [|y rest].
    + simpl in *. by rewrite IH.
    + change (Join (String x l :: y :: rest) (str1 c))
        with (String x (Join (l :: y :: rest) (str1 c))).
      by rewrite IH.
Qed.

Lemma rescan_without_directive (lines : list string) :
  Forall (λ l, find l = None) lines → rescan None lines = lines.
Proof.
  induction 1 as [|l lines Hl _ IH]; [done|].
  simpl. by rewrite Hl, IH.
Qed.

Lemma ends_without_directive (lines : list string) :
  Forall (λ l, find l = None) lines → ends_with_directive lines = false.
Proof.
  intros H. unfold ends_with_directive.
  destruct (last lines) as [l|] eqn:Hlast; [|done].
  apply last_Some_elem_of in Hlast.
  rewrite Forall_forall in H. rewrite (H l Hlast).
  apply bool_decide_eq_false. by intros [? ?].
Qed.

(** X23. A module script without any directive is left as it is: when no
    line of the content matches the directive pattern, the remap returns
    the content unchanged, byte for byte (it neither panics nor alters the
    line ends). *)
Theorem remap_without_directive_is_identity (content : string) :
  Forall (λ l, FindSymbol "" l = []) (Split content nl) →
  remap content = Some content.
Proof.
  intros H.
  assert (H' : Forall (λ l, find l = None) (Split content nl)).
  { eapply Forall_impl; [exact H|]. intros l. unfold FindSymbol.
    by destruct (find l) as [[? ?]|]. }
  rewrite remap_no_trailing_directive.
  - by rewrite rescan_without_directive, Join_Split.
  - rewrite rescan_without_directive by done. by apply ends_without_directive.
Qed.

Lemma Split_inline (s : string) :
  Forall (λ l, all_chars inline l = true) (Split s nl).
Proof.
  induction s as [|x s IH]; [by repeat constructor|].
  cbn [Split]. case_bool_decide as Hx; [by constructor|].
  assert (Hi : inline x = true).
  { unfold inline. by rewrite bool_decide_eq_false_2. }
  destruct (Split s nl) as [|f fs].
  - repeat constructor. cbn [str1 all_chars]. by rewrite Hi.
  - inversion_clear IH as [|? ? Hf Hfs]. constructor; [|done].
    cbn [all_chars]. by rewrite Hi, Hf.
Qed.

Lemma Split_one (l : string) :
  all_chars inline l = true → Split l nl = [l].
Proof.
  induction l as [|x l IH]; [done|].
  simpl. intros [Hx Hl]%andb_true_iff.
  unfold inline in Hx. apply negb_true_iff, bool_decide_eq_false in Hx.
  rewrite bool_decide_eq_false_2 by done. by rewrite (IH Hl).
Qed.

Lemma Split_line (l rest : string) :
  all_chars inline l = true →
  Split (l +:+ String nl rest) nl = l :: Split rest nl.
Proof.
  induction l as [|x l IH]; intros Hl.
  - reflexivity.
  - simpl in Hl. apply andb_true_iff in Hl as [Hx Hl].
    unfold inline in Hx. apply negb_true_iff, bool_decide_eq_false in Hx.
    rewrite append_cons. simpl.
    rewrite bool_decide_eq_false_2 by done. by rewrite (IH Hl).
Qed.

Lemma Split_Join (lines : list string) :
  lines ≠ [] →
  Forall (λ l, all_chars inline l = true) lines →
  Split (Join lines (str1 nl)) nl = lines.
Proof.
  intros Hne H. induction H as [|l lines Hl H IH]; [done|].
  destruct lines as [|y lines].
  - simpl. by apply Split_one.
  - change (Join (l :: y :: lines) (str1 nl))
      with (l +:+ String nl (Join (y :: lines) (str1 nl))).
    rewrite Split_line by done. by rewrite IH.
Qed.

Lemma Replace1_inline (l a b : string) :
  all_chars inline l = true → all_chars inline b = true →
  all_chars inline (Replace1 l a b) = true.
Proof.
  intros Hl Hb. induction l as [|x l IH].
  - rewrite Replace1_eq. destruct (cut_prefix a EmptyString) as [rest|] eqn:Hc; [|done].
    apply cut_prefix_Some in Hc. rewrite all_chars_app, Hb. simpl.
    rewrite Hc, all_chars_app in Hl. by apply andb_true_iff in Hl as [_ ?].
  - rewrite Replace1_eq. destruct (cut_prefix a (String x l)) as [rest|] eqn:Hc.
    + apply cut_prefix_Some in Hc. rewrite all_chars_app, Hb. simpl.
      rewrite Hc, all_chars_app in Hl. by apply andb_true_iff in Hl as [_ ?].
    + simpl in *. apply andb_true_iff in Hl as [Hx Hl].
      by rewrite Hx, (IH Hl).
Qed.

Lemma rescan_inline (lines : list string) : ∀ pending,
  Forall (λ l, all_chars inline l = true) lines →
  match pending with
  | Some (_, b) => all_chars inline b = true
  | None => True
  end →
  Forall (λ l, all_chars inline l = true) (rescan pending lines).
Proof.
  induction lines as [|l lines IH]; intros pending H Hp; [done|].
  inversion_clear H as [|? ? Hl Hls]. cbn [rescan].
  set (l' := match pending with Some (a, b) => Replace1 l a b | None => l end).
  assert (Hl' : all_chars inline l' = true).
  { subst l'. destruct pending as [[a b]|]; [|done]. by apply Replace1_inline. }
  constructor; [done|]. apply IH; [done|].
  destruct (find l') as [[a b]|] eqn:Hf; [|done].
  by destruct (find_Some _ _ _ Hf) as (_ & _ & _ & _ & _ & _ & _ & _ & ?).
Qed.

Lemma rescan_length (lines : list string) : ∀ pending,
  length (rescan pending lines) = length lines.
Proof. induction lines as [|l lines IH]; intros p; simpl; by rewrite ?IH. Qed.

Lemma rescan_after_plain_line (lines : list string) : ∀ pending i l,
  rescan pending lines !! i = Some l →
  find l = None →
  rescan pending lines !! S i = lines !! S i.
Proof.
  induction lines as [|x lines IH]; intros pending i l Hi Hl; [done|].
  cbn [rescan] in *. destruct i as [|i].
  - simpl in Hi. injection Hi as Hi. rewrite Hi, Hl.
    change ((?y :: ?r) !! 1%nat) with (r !! 0%nat). by destruct lines.
  - change ((?y :: ?r) !! S ?j) with (r !! j) in *. by eapply IH.
Qed.

(** X24. The remap keeps the lines in place: whenever it returns, the
    result has as many lines as the content, the first line is unchanged,
    and so is every line that follows a line which, in the result, carries
    no directive; only lines right after a directive can differ. *)
Theorem remap_keeps_line_structure (content out : string) :
  remap content = Some out →
  length (Split out nl) = length (Split content nl)
  ∧ Split out nl !! 0%nat = Split content nl !! 0%nat
  ∧ ∀ i l, Split out nl !! i = Some l →
           FindSymbol "" l = [] →
           Split out nl !! S i = Split content nl !! S i.
Proof.
  intros Hr.
  destruct (ends_with_directive (rescan None (Split content nl))) eqn:He.
  { by rewrite (remap_trailing_directive _ He) in Hr. }
  rewrite (remap_no_trailing_directive _ He) in Hr. injection Hr as <-.
  rewrite Split_Join.
  - split; [apply rescan_length|]. split.
    + by destruct (Split content nl).
    + intros i l Hi Hl. apply (rescan_after_plain_line _ _ _ l Hi).
      unfold FindSymbol in Hl. by destruct (find l) as [[? ?]|].
  - destruct (Split_nonempty content nl) as (l & rest & ->). done.
  - apply rescan_inline; [apply Split_inline|done].
Qed.

End DirectiveFacts.

(** ** Further properties at concrete worlds *)

Module MoreWitnesses.
Import GoStrings Trace Observe DirectiveText.

Lemma checkStates_current_backup_proceeds_witness :
  IsEmpty (backStat_of (P := Demo.platform false) Demo.fresh_host) = false
  ∧ IsOutdated (backStat_of (P := Demo.platform false) Demo.fresh_host) = false
  ∧ checkStates (P := Demo.platform false) Demo.fresh_host = Ok () Demo.fresh_host.
Proof.
  assert (H1 : IsEmpty (backStat_of (P := Demo.platform false) Demo.fresh_host)
               = false) by reflexivity.
  assert (H2 : IsOutdated (backStat_of (P := Demo.platform false) Demo.fresh_host)
               = false) by reflexivity.
  split; [exact H1|]. split; [exact H2|].
  exact (checkStates_current_backup_proceeds (P := Demo.platform false)
           Demo.fresh_host H1 H2).
Defined.

Lemma Apply_install_failure_is_fatal_witness :
  let P := Scenes.copy_fails in
  let w := Demo.fresh_host in
  log (world_of (Apply w))
  = log w ++ Scenes.before_failed_copy
    ++ Call Scenes.failed_copy (Returned (Some "disk full"))
    :: [Print PFatal "disk full"]
  ∧ is_install Scenes.failed_copy = true
  ∧ [Print PFatal "disk full"] = [Print PFatal "disk full"]
  ∧ ∃ w', Apply w = Exit 1 w'.
Proof.
  intros P w.
  assert (Hlog : log (world_of (Apply w))
                 = log w ++ Scenes.before_failed_copy
                   ++ Call Scenes.failed_copy (Returned (Some "disk full"))
                   :: [Print PFatal "disk full"])
    by (vm_compute; reflexivity).
  split; [exact Hlog|]. split; [reflexivity|].
  exact (Apply_install_failure_is_fatal w _ _ _ _ Hlog eq_refl).
Defined.

Lemma Apply_removes_before_copying_witness :
  let P := Demo.platform true in
  let w := Demo.fresh_host in
  log (world_of (Apply w))
  = log w ++ [Print PBold "Copying raw assets:"]
    ++ Call (os_RemoveAll "/spotify/Apps") (Returned None)
    :: Scenes.after_removal
  ∧ ∃ g, InitSetting_globals (cfg w) (fs w) = inl g
         ∧ IsApplied (spotifystatus_Get (appDestPath g) (fs w)) = false
         ∧ "/spotify/Apps" = appDestPath g
         ∧ Forall (λ e, is_print e || is_ask e = true)
                  [Print PBold "Copying raw assets:"].
Proof.
  intros P w.
  assert (Hlog : log (world_of (Apply w))
                 = log w ++ [Print PBold "Copying raw assets:"]
                   ++ Call (os_RemoveAll "/spotify/Apps") (Returned None)
                   :: Scenes.after_removal)
    by (vm_compute; reflexivity).
  split; [exact Hlog|].
  exact (Apply_removes_before_copying w _ _ _ _ Hlog).
Defined.

Lemma Apply_writes_after_user_css_witness :
  let P := Demo.platform true in
  let w := Demo.fresh_host in
  let pre := Demo.before_user_css
             ++ [Demo.user_css; Print PGreen "OK";
                 Print PBold "Applying additional modifications:"] in
  log (world_of (Apply w))
  = log w ++ pre ++ Scenes.additional_options
    :: [Print PGreen "OK"; Print PSuccess "Spotify is spiced up!"]
  ∧ is_later_step Scenes.additional_options = true
  ∧ ∃ g st before after,
      InitSetting_globals (cfg w) (fs w) = inl g
      ∧ pre = before
              ++ Call (apply_UserCSS (appDestPath g)
                         (if negb (injectCSS g) then EmptyString else themeFolder g)
                         (colorSection g)) st
              :: after
      ∧ Forall (λ x, is_later_step x = false) before.
Proof.
  intros P w pre.
  assert (Hlog : log (world_of (Apply w))
                 = log w ++ pre ++ Scenes.additional_options
                   :: [Print PGreen "OK"; Print PSuccess "Spotify is spiced up!"])
    by (vm_compute; reflexivity).
  split; [exact Hlog|]. split; [reflexivity|].
  exact (Apply_writes_after_user_css w _ _ _ Hlog eq_refl).
Defined.

Lemma pushExtensions_copy_failure_continues_witness :
  let P := Demo.platform true in
  (resolves_to Scenes.ext_is_folder "d.js" "/home/u/Extensions/d.js"
   ∧ read_file (fs Scenes.ext_is_folder) "/home/u/Extensions/d.js" = None
   ∧ ∃ msg, pushExtensions ["d.js"; "a.js"] Scenes.ext_is_folder
            = pushExtensions ["a.js"]
                (logged Scenes.ext_is_folder [Print PError msg]))
  ∧ (resolves_to Scenes.ext_refused "a.js" "/home/u/Extensions/a.js"
     ∧ read_file (fs Scenes.ext_refused) "/home/u/Extensions/a.js" = Some "user"
     ∧ can_write (fs Scenes.ext_refused) "/spotify/Apps/xpui/a.js" = false
     ∧ ∃ msg, pushExtensions ["a.js"; "b.js"] Scenes.ext_refused
              = pushExtensions ["b.js"]
                  (logged Scenes.ext_refused
                     [Write "/spotify/Apps/xpui/a.js" "user" (Some msg);
                      Print PError msg])).
Proof.
  intros P. split.
  - assert (H : resolves_to Scenes.ext_is_folder "d.js" "/home/u/Extensions/d.js")
      by (right; split; reflexivity).
    assert (Hr : read_file (fs Scenes.ext_is_folder) "/home/u/Extensions/d.js"
                 = None) by reflexivity.
    split; [exact H|]. split; [exact Hr|].
    exact (proj1 (pushExtensions_copy_failure_continues
                    Scenes.ext_is_folder "d.js" _ ["a.js"] H) Hr).
  - assert (H : resolves_to Scenes.ext_refused "a.js" "/home/u/Extensions/a.js")
      by (right; split; reflexivity).
    assert (Hr : read_file (fs Scenes.ext_refused) "/home/u/Extensions/a.js"
                 = Some "user") by reflexivity.
    assert (Hw : can_write (fs Scenes.ext_refused) "/spotify/Apps/xpui/a.js"
                 = false) by (vm_compute; reflexivity).
    split; [exact H|]. split; [exact Hr|]. split; [exact Hw|].
    exact (proj2 (pushExtensions_copy_failure_continues
                    Scenes.ext_refused "a.js" _ ["b.js"] H) "user" Hr Hw).
Defined.

Lemma pushExtensions_copies_verbatim_witness :
  let P := Demo.platform true in
  let w := Demo.both_folders in
  let target := "/spotify/Apps/xpui/a.js" in
  resolves_to w "a.js" "/home/u/Extensions/a.js"
  ∧ HasSuffix (extName_of "a.js") ".mjs" = false
  ∧ read_file (fs w) "/home/u/Extensions/a.js" = Some "user"
  ∧ can_write (fs w) target = true
  ∧ pushExtensions ["a.js"] w = pushExtensions [] (written target "user" w)
  ∧ read_file (fs (written target "user" w)) target = Some "user"
  ∧ log (written target "user" w) = log w ++ [Write target "user" None].
Proof.
  intros P w target.
  assert (H : resolves_to w "a.js" "/home/u/Extensions/a.js")
    by (right; split; reflexivity).
  assert (Hs : HasSuffix (extName_of "a.js") ".mjs" = false) by reflexivity.
  assert (Hr : read_file (fs w) "/home/u/Extensions/a.js" = Some "user")
    by reflexivity.
  assert (Hw : can_write (fs w) target = true) by (vm_compute; reflexivity).
  split; [exact H|]. split; [exact Hs|]. split; [exact Hr|]. split; [exact Hw|].
  exact (pushExtensions_copies_verbatim w "a.js" _ "user" [] H Hs Hr Hw).
Defined.


Lemma pushExtensions_never_exits_witness :
  let P := Demo.platform true in
  Forall (λ v, HasSuffix (extName_of v) ".mjs" = false) ["a.js"; "b.js"]
  ∧ ∃ w', pushExtensions ["a.js"; "b.js"] Demo.both_folders = Ok () w'.
Proof.
  intros P.
  assert (H : Forall (λ v, HasSuffix (extName_of v) ".mjs" = false) ["a.js"; "b.js"])
    by (repeat constructor).
  split; [exact H|].
  exact (proj2 (pushExtensions_never_exits ["a.js"; "b.js"] Demo.both_folders) H).
Defined.

Lemma pushExtensions_touches_only_xpui_witness :
  let P := Demo.platform true in
  let w := Demo.both_folders in
  let p := "/home/u/Extensions/a.js" in
  (∀ name, p ≠ filepath_Join [xpui (cfg w); name])
  ∧ nodes (fs (world_of (pushExtensions ["a.js"] w))) !! p = nodes (fs w) !! p
  ∧ cfg (world_of (pushExtensions ["a.js"] w)) = cfg w
  ∧ (∀ p', stat (fs w) p' = true →
           stat (fs (world_of (pushExtensions ["a.js"] w))) p' = true).
Proof.
  intros P w p.
  assert (H : ∀ name, p ≠ filepath_Join [xpui (cfg w); name])
    by (intros name; destruct name; vm_compute; discriminate).
  split; [exact H|].
  exact (pushExtensions_touches_only_xpui ["a.js"] w p H).
Defined.

Lemma pushApps_touches_only_artifacts_witness :
  let P := Demo.platform true in
  let w := Demo.app_world in
  let p := "/home/u/CustomApps/demo/index.js" in
  (∀ app ext, app ∈ ["demo"] → ext ∈ [".json"; ".js"; ".css"] →
              p ≠ artifact (cfg w) app ext)
  ∧ nodes (fs (world_of (pushApps ["demo"] w))) !! p = nodes (fs w) !! p
  ∧ (∀ p', stat (fs w) p' = true → stat (fs (world_of (pushApps ["demo"] w))) p' = true).
Proof.
  intros P w p.
  assert (H : ∀ app ext, app ∈ ["demo"] → ext ∈ [".json"; ".js"; ".css"] →
                         p ≠ artifact (cfg w) app ext).
  { intros app ext Happ Hext.
    apply elem_of_cons in Happ as [->|Happ]; [|by apply elem_of_nil in Happ].
    repeat (apply elem_of_cons in Hext as [->|Hext];
            [vm_compute; discriminate|]).
    by apply elem_of_nil in Hext. }
  split; [exact H|].
  exact (pushApps_touches_only_artifacts ["demo"] w p H).
Defined.

Lemma pushApps_stylesheet_artifact_witness :
  let P := Demo.platform true in
  let w := Scenes.styled_app in
  let dir := "/home/u/CustomApps/demo" in
  getCustomAppPath "demo" w = Ok (dir, None) w
  ∧ read_file (fs w) (filepath_Join [dir; "index.js"]) = Some "A"
  ∧ artifact (cfg w) "demo" ".json" ≠ filepath_Join [dir; "style.css"]
  ∧ artifact (cfg w) "demo" ".js" ≠ filepath_Join [dir; "style.css"]
  ∧ ∃ w' d1 d2 e1 e2 e3,
      pushApps_item "demo" w = Ok () w'
      ∧ log w' = log w ++
          [Write (artifact (cfg w) "demo" ".json") d1 e1;
           Write (artifact (cfg w) "demo" ".js") d2 e2;
           Write (artifact (cfg w) "demo" ".css")
                 (default EmptyString
                    (read_file (fs w) (filepath_Join [dir; "style.css"]))) e3].
Proof.
  intros P w dir.
  assert (H1 : getCustomAppPath "demo" w = Ok (dir, None) w) by reflexivity.
  assert (H2 : read_file (fs w) (filepath_Join [dir; "index.js"]) = Some "A")
    by reflexivity.
  assert (H3 : artifact (cfg w) "demo" ".json" ≠ filepath_Join [dir; "style.css"])
    by (vm_compute; discriminate).
  assert (H4 : artifact (cfg w) "demo" ".js" ≠ filepath_Join [dir; "style.css"])
    by (vm_compute; discriminate).
  split; [exact H1|]. split; [exact H2|]. split; [exact H3|]. split; [exact H4|].
  exact (pushApps_stylesheet_artifact w "demo" dir "A" H1 H2 H3 H4).
Defined.

Lemma pushApps_manifest_verbatim_witness :
  let P := Demo.platform true in
  let w := Demo.app_world in
  let dir := "/home/u/CustomApps/demo" in
  getCustomAppPath "demo" w = Ok (dir, None) w
  ∧ read_file (fs w) (filepath_Join [dir; "index.js"]) = Some "A"
  ∧ read_file (fs w) (filepath_Join [dir; "manifest.json"])
    = Some Demo.manifest_extra
  ∧ ∃ w' d2 d3 e2 e3,
      pushApps_item "demo" w = Ok () w'
      ∧ log w' = log w ++
          [Write (artifact (cfg w) "demo" ".json") Demo.manifest_extra
                 (write_error (fs w) (artifact (cfg w) "demo" ".json"));
           Write (artifact (cfg w) "demo" ".js") d2 e2;
           Write (artifact (cfg w) "demo" ".css") d3 e3]
      ∧ (can_write (fs w) (artifact (cfg w) "demo" ".json") = true →
         read_file (fs (written (artifact (cfg w) "demo" ".json")
                          Demo.manifest_extra w))
                   (artifact (cfg w) "demo" ".json") = Some Demo.manifest_extra).
Proof.
  intros P w dir.
  assert (H1 : getCustomAppPath "demo" w = Ok (dir, None) w) by reflexivity.
  assert (H2 : read_file (fs w) (filepath_Join [dir; "index.js"]) = Some "A")
    by reflexivity.
  assert (H3 : read_file (fs w) (filepath_Join [dir; "manifest.json"])
               = Some Demo.manifest_extra) by reflexivity.
  split; [exact H1|]. split; [exact H2|]. split; [exact H3|].
  exact (pushApps_manifest_verbatim w "demo" dir "A" _ H1 H2 H3).
Defined.

Lemma nodeModuleSymlink_absent_is_silent_witness :
  let P := Demo.platform true in
  let w := Demo.both_folders in
  stat (fs w) (filepath_Join [userExtensionsFolder (cfg w); "node_modules"]) = false
  ∧ stat (fs w) (filepath_Join [GetExecutableDir; "Extensions"; "node_modules"]) = false
  ∧ nodeModuleSymlink w = Ok () w.
Proof.
  intros P w.
  assert (H1 : stat (fs w) (filepath_Join [userExtensionsFolder (cfg w); "node_modules"])
               = false) by reflexivity.
  assert (H2 : stat (fs w) (filepath_Join [GetExecutableDir; "Extensions"; "node_modules"])
               = false) by reflexivity.
  split; [exact H1|]. split; [exact H2|].
  exact (nodeModuleSymlink_absent_is_silent w H1 H2).
Defined.

Lemma nodeModuleSymlink_links_resolved_folder_witness :
  let P := Demo.platform true in
  let w := Scenes.with_node_modules in
  let src := "/home/u/Extensions/node_modules" in
  getExtensionPath "node_modules" w = Ok (src, None) w
  ∧ nodeModuleSymlink w
    = Ok () (logged w
               [Print PBold "Found node_modules folder. Creating node_modules symlink:";
                Call (utils_CreateJunction src "/spotify/Apps/xpui/node_modules")
                     (Returned None);
                Print PGreen "OK"]).
Proof.
  intros P w src.
  assert (H : getExtensionPath "node_modules" w = Ok (src, None) w)
    by reflexivity.
  split; [exact H|].
  exact (nodeModuleSymlink_links_resolved_folder w src H).
Defined.

Lemma UpdateTheme_blank_theme_witness :
  let P := Demo.platform true in
  let w := Scenes.blank_theme in
  checkStates w = Ok () (logged w [])
  ∧ InitSetting_globals (cfg w) (fs w) = inl (cfg w)
  ∧ themeFolder (cfg w) = EmptyString
  ∧ UpdateTheme w
    = Exit 1 (mkWorld (fs w) (cfg w)
                (log w ++ [] ++ [Print PWarning msg_blank_theme])).
Proof.
  intros P w.
  assert (H1 : checkStates w = Ok () (logged w [])) by reflexivity.
  assert (H2 : InitSetting_globals (cfg w) (fs w) = inl (cfg w)) by reflexivity.
  assert (H3 : themeFolder (cfg w) = EmptyString) by reflexivity.
  split; [exact H1|]. split; [exact H2|]. split; [exact H3|].
  exact (UpdateTheme_blank_theme w [] (cfg w) H1 H2 H3).
Defined.

Lemma UpdateAllExtension_without_extensions_witness :
  let P := Demo.platform true in
  let w := Demo.fresh_host in
  checkStates w = Ok () w
  ∧ extensions (cfg w) = []
  ∧ UpdateAllExtension Scenes.clock w
    = Ok () (logged w [Print PError "No extension to update."])
  ∧ fs w = fs w.
Proof.
  intros P w.
  assert (H1 : checkStates w = Ok () w) by reflexivity.
  assert (H2 : extensions (cfg w) = []) by reflexivity.
  split; [exact H1|]. split; [exact H2|].
  exact (UpdateAllExtension_without_extensions Scenes.clock w w H1 H2).
Defined.

Lemma UpdateAllExtension_only_pushes_witness :
  let P := Demo.platform true in
  let w := Scenes.host_with_extension in
  let p := "/home/u/Extensions/a.js" in
  (∀ name, p ≠ filepath_Join [xpui (cfg w); name])
  ∧ nodes (fs (world_of (UpdateAllExtension Scenes.clock w))) !! p
    = nodes (fs w) !! p.
Proof.
  intros P w p.
  assert (H : ∀ name, p ≠ filepath_Join [xpui (cfg w); name])
    by (intros name; destruct name; vm_compute; discriminate).
  split; [exact H|].
  exact (proj2 (proj2 (UpdateAllExtension_only_pushes Scenes.clock w p)) H).
Defined.

Lemma FindSymbol_yields_two_tokens_witness :
  let line := "x = 1; //  spicetify_map{foo}{bar} and more" in
  FindSymbol "" line ≠ []
  ∧ ∃ a b pre ws post,
      FindSymbol "" line = [a; b]
      ∧ line = pre +:+ directive ws a b +:+ post
      ∧ all_chars Directive.is_space ws = true
      ∧ a ≠ EmptyString ∧ b ≠ EmptyString
      ∧ all_chars inline a = true ∧ all_chars inline b = true.
Proof.
  intros line.
  assert (H : FindSymbol "" line ≠ []) by (vm_compute; discriminate).
  split; [exact H|].
  exact (DirectiveFacts.FindSymbol_yields_two_tokens line H).
Defined.

Lemma FindSymbol_reads_directive_witness :
  all_chars Directive.is_space "  " = true
  ∧ "foo" ≠ EmptyString ∧ "bar.baz" ≠ EmptyString
  ∧ all_chars plain "foo" = true ∧ all_chars plain "bar.baz" = true
  ∧ FindSymbol "" (directive "  " "foo" "bar.baz" +:+ " // {x}{y}")
    = ["foo"; "bar.baz"].
Proof.
  assert (H1 : all_chars Directive.is_space "  " = true) by reflexivity.
  assert (H2 : "foo" ≠ EmptyString) by discriminate.
  assert (H3 : "bar.baz" ≠ EmptyString) by discriminate.
  assert (H4 : all_chars plain "foo" = true) by reflexivity.
  assert (H5 : all_chars plain "bar.baz" = true) by reflexivity.
  split; [exact H1|]. split; [exact H2|]. split; [exact H3|].
  split; [exact H4|]. split; [exact H5|].
  exact (DirectiveFacts.FindSymbol_reads_directive "  " "foo" "bar.baz"
           " // {x}{y}" H1 H2 H3 H4 H5).
Defined.

Lemma remap_without_directive_is_identity_witness :
  let content := "import a from 'b'" +:+ str1 nl +:+ "a.init()" +:+ str1 nl in
  Forall (λ l, FindSymbol "" l = []) (Split content nl)
  ∧ remap content = Some content.
Proof.
  intros content.
  assert (H : Forall (λ l, FindSymbol "" l = []) (Split content nl))
    by (repeat constructor).
  split; [exact H|].
  exact (DirectiveFacts.remap_without_directive_is_identity content H).
Defined.

Lemma remap_keeps_line_structure_witness :
  let out := "// spicetify_map{foo}{bar}" +:+ str1 nl +:+ "bar.init()" in
  remap Demo.module_script = Some out
  ∧ length (Split out nl) = length (Split Demo.module_script nl)
  ∧ Split out nl !! 0%nat = Split Demo.module_script nl !! 0%nat
  ∧ ∀ i l, Split out nl !! i = Some l →
           FindSymbol "" l = [] →
           Split out nl !! S i = Split Demo.module_script nl !! S i.
Proof.
  intros out.
  assert (H : remap Demo.module_script = Some out) by reflexivity.
  split; [exact H|].
  exact (DirectiveFacts.remap_keeps_line_structure Demo.module_script out H).
Defined.

End MoreWitnesses.
